(** * parsec: a parser-combinator library over a mutable vessel

    Shallow embedding of [parsec.go].  A Go [string] is a sequence of bytes
    (Rocq's [string]); [range] over a string decodes UTF-8 and yields one
    (byte offset, rune) pair per character.  A Go [int] is a 64-bit signed
    integer, carried in [Z] with its wrap-around written out.  A parser
    mutates the vessel it is given: here it takes the vessel and returns the
    vessel it leaves behind together with its two results. *)

From Stdlib Require Import ZArith List String Ascii Bool Lia.
Import ListNotations.

Open Scope string_scope.
Open Scope Z_scope.

Module parsec.

(** ** Go's [int] *)

Definition int_bits : Z := 64.
Definition max_int : Z := 2 ^ (int_bits - 1) - 1.
Definition min_int : Z := - 2 ^ (int_bits - 1).

Definition int_wrap (z : Z) : Z :=
  (z + 2 ^ (int_bits - 1)) mod 2 ^ int_bits - 2 ^ (int_bits - 1).

Definition int_add (a b : Z) : Z := int_wrap (a + b).
Definition int_sub (a b : Z) : Z := int_wrap (a - b).

Definition is_int (z : Z) : Prop := min_int <= z <= max_int.

(** ** Go strings: bytes, slicing, UTF-8 *)

Definition byte_of (a : ascii) : Z := Z.of_nat (nat_of_ascii a).
Definition ascii_of (b : Z) : ascii := ascii_of_nat (Z.to_nat b).

(** [len(s)]: the number of bytes. *)
Definition len (s : string) : Z := Z.of_nat (String.length s).

(** [s[o:]] *)
Fixpoint slice_from (o : nat) (s : string) : string :=
  match o with
  | O => s
  | S o' => match s with
            | EmptyString => EmptyString
            | String _ t => slice_from o' t
            end
  end.

(** [strings.HasPrefix(s, prefix)] *)
Definition HasPrefix (s prefix : string) : bool := String.prefix prefix s.

Definition RuneError : Z := 65533.

Definition is_cont (b : Z) : bool := (128 <=? b) && (b <=? 191).

Definition low6 (b : Z) : Z := Z.land b 63.

(** The first rune of a non-empty string and its width in bytes; an
    ill-formed sequence decodes to [RuneError] with width 1. *)
Definition decode_rune (s : string) : Z * nat :=
  match s with
  | EmptyString => (RuneError, O)
  | String a0 t =>
    let b0 := byte_of a0 in
    if b0 <? 128 then (b0, 1%nat)
    else if (194 <=? b0) && (b0 <=? 223) then
      match t with
      | String a1 _ =>
        let b1 := byte_of a1 in
        if is_cont b1
        then (Z.lor (Z.shiftl (Z.land b0 31) 6) (low6 b1), 2%nat)
        else (RuneError, 1%nat)
      | _ => (RuneError, 1%nat)
      end
    else if (224 <=? b0) && (b0 <=? 239) then
      match t with
      | String a1 (String a2 _) =>
        let b1 := byte_of a1 in
        let b2 := byte_of a2 in
        let lo := if b0 =? 224 then 160 else 128 in
        let hi := if b0 =? 237 then 159 else 191 in
        if (lo <=? b1) && (b1 <=? hi) && is_cont b2
        then (Z.lor (Z.lor (Z.shiftl (Z.land b0 15) 12)
                           (Z.shiftl (low6 b1) 6)) (low6 b2), 3%nat)
        else (RuneError, 1%nat)
      | _ => (RuneError, 1%nat)
      end
    else if (240 <=? b0) && (b0 <=? 244) then
      match t with
      | String a1 (String a2 (String a3 _)) =>
        let b1 := byte_of a1 in
        let b2 := byte_of a2 in
        let b3 := byte_of a3 in
        let lo := if b0 =? 240 then 144 else 128 in
        let hi := if b0 =? 244 then 143 else 191 in
        if (lo <=? b1) && (b1 <=? hi) && is_cont b2 && is_cont b3
        then (Z.lor (Z.lor (Z.lor (Z.shiftl (Z.land b0 7) 18)
                                  (Z.shiftl (low6 b1) 12))
                           (Z.shiftl (low6 b2) 6)) (low6 b3), 4%nat)
        else (RuneError, 1%nat)
      | _ => (RuneError, 1%nat)
      end
    else (RuneError, 1%nat)
  end.

(** [for o, v := range s]: the (byte offset, rune) pairs in order.  The
    first argument bounds the number of iterations by the byte length. *)
Fixpoint range_from (n : nat) (o : nat) (s : string) : list (Z * Z) :=
  match n with
  | O => []
  | S n' =>
    match s with
    | EmptyString => []
    | String _ _ =>
      let '(r, w) := decode_rune s in
      (Z.of_nat o, r) :: range_from n' (o + w)%nat (slice_from w s)
    end
  end.

Definition range (s : string) : list (Z * Z) :=
  range_from (String.length s) O s.

(** The characters (runes) of a string. *)
Definition runes (s : string) : list Z := map snd (range s).

(** A string of single-byte characters only. *)
Fixpoint ascii_only (s : string) : bool :=
  match s with
  | EmptyString => true
  | String a t => (byte_of a <? 128) && ascii_only t
  end.

(** [string(r)] for an [int] r: the UTF-8 encoding of the rune; a value that
    is no valid code point encodes as [RuneError]. *)
Definition encode_rune (r : Z) : string :=
  let r := if (r <? 0) || (1114111 <? r) || ((55296 <=? r) && (r <=? 57343))
           then RuneError else r in
  if r <? 128 then String (ascii_of r) EmptyString
  else if r <? 2048 then
    String (ascii_of (Z.lor 192 (Z.shiftr r 6)))
      (String (ascii_of (Z.lor 128 (low6 r))) EmptyString)
  else if r <? 65536 then
    String (ascii_of (Z.lor 224 (Z.shiftr r 12)))
      (String (ascii_of (Z.lor 128 (low6 (Z.shiftr r 6))))
        (String (ascii_of (Z.lor 128 (low6 r))) EmptyString))
  else
    String (ascii_of (Z.lor 240 (Z.shiftr r 18)))
      (String (ascii_of (Z.lor 128 (low6 (Z.shiftr r 12))))
        (String (ascii_of (Z.lor 128 (low6 (Z.shiftr r 6))))
          (String (ascii_of (Z.lor 128 (low6 r))) EmptyString))).

(** [string(rs)] for a [[]int]. *)
Fixpoint encode_runes (rs : list Z) : string :=
  match rs with
  | [] => EmptyString
  | r :: rs' => encode_rune r ++ encode_runes rs'
  end.

(** [unicode.IsSpace] *)
Definition IsSpace (c : Z) : bool :=
  ((9 <=? c) && (c <=? 13)) || (c =? 32) || (c =? 133) || (c =? 160)
  || (c =? 5760) || ((8192 <=? c) && (c <=? 8202)) || (c =? 8232)
  || (c =? 8233) || (c =? 8239) || (c =? 8287) || (c =? 12288).

(** ** Values, positions, outcomes *)

Set Warnings "-register-all".

(** Go's [interface{}], the type behind [Input], [Output] and [State]:
    the dynamic values the library itself produces. *)
Inductive Value : Type :=
| VNil
| VInt (n : Z)
| VString (s : string)
| VSlice (xs : list Value)      (* []interface{} *)
| VVector (xs : list Value).    (* *vector.Vector *)

Definition Input := Value.
Definition Output := Value.
Definition State := Value.

Record Position : Type := mkPosition {
  Name : string;
  Line : Z;
  Column : Z;
  Offset : Z
}.

(** How a call ends: it returns, it panics (a failed type assertion or an
    index out of range), or the loop budget of the model is used up. *)
Inductive outcome (A : Type) : Type :=
| Done (a : A)
| Panic
| OutOfFuel.

Arguments Done {A} a.
Arguments Panic {A}.
Arguments OutOfFuel {A}.

Definition bind {A B : Type} (m : outcome A) (k : A -> outcome B) : outcome B :=
  match m with
  | Done a => k a
  | Panic => Panic
  | OutOfFuel => OutOfFuel
  end.

Notation "x <- m ;; k" := (bind m (fun x => k))
  (at level 61, m at next level, right associativity).
Notation "' pat <- m ;; k" := (bind m (fun x => match x with pat => k end))
  (at level 61, pat pattern, m at next level, right associativity).

(** Type assertions [v.(int)], [v.(string)], [v.([]interface{})] and
    [v.( *vector.Vector)]. *)
Definition as_int (v : Value) : outcome Z :=
  match v with VInt n => Done n | _ => Panic end.
Definition as_string (v : Value) : outcome string :=
  match v with VString s => Done s | _ => Panic end.
Definition as_slice (v : Value) : outcome (list Value) :=
  match v with VSlice xs => Done xs | _ => Panic end.
Definition as_vector (v : Value) : outcome (list Value) :=
  match v with VVector xs => Done xs | _ => Panic end.

(** [xs.At(i)] *)
Definition At (xs : list Value) (i : nat) : outcome Value :=
  match nth_error xs i with
  | Some x => Done x
  | None => Panic
  end.

(** ** Spec, StringVessel and its methods *)

Section Vessel.

(** The parsers a [Spec] stores.  A [Parser] is a function on the vessel that
    holds the [Spec], so the stored parsers are kept behind a type [P] of
    their own; [Identifier] runs them through [call]. *)
Variable P : Type.

Record Spec : Type := mkSpec {
  CommentStart : string;
  CommentEnd : string;
  CommentLine : string;
  NestedComments : bool;
  IdentStart : P;
  IdentLetter : P;
  OpStart : P;
  OpLetter : P;
  ReservedNames : list string;
  ReservedOpNames : list string;
  CaseSensitive : bool
}.

Record StringVessel : Type := mkStringVessel {
  state : State;
  input : string;
  position : Position;
  spec : Spec
}.

Definition GetState (self : StringVessel) : State := state self.

Definition SetState (self : StringVessel) (st : State) : StringVessel :=
  mkStringVessel st (input self) (position self) (spec self).

Fixpoint GetInput_loop (self : StringVessel) (rs : list (Z * Z)) (i : Z)
  : string :=
  match rs with
  | [] => ""
  | (o, _) :: rs' =>
    if i =? Offset (position self)
    then slice_from (Z.to_nat o) (input self)
    else GetInput_loop self rs' (int_add i 1)
  end.

Definition GetInput (self : StringVessel) : Input :=
  VString (GetInput_loop self (range (input self)) 0).

Fixpoint Get_loop (self : StringVessel) (i : Z) (rs : list (Z * Z))
  (n : Z) (s : string) : string :=
  match rs with
  | [] => s
  | (_, v) :: rs' =>
    if Offset (position self) <=? n then
      if int_add (Offset (position self)) i <? n then s
      else Get_loop self i rs' (int_add n 1) (s ++ encode_rune v)
    else Get_loop self i rs' (int_add n 1) s
  end.

Definition Get (self : StringVessel) (i : Z) : Input * bool :=
  if len (input self) <? int_add (Offset (position self)) i
  then (VString "", false)
  else (VString (Get_loop self i (range (input self)) 0 ""), true).

Fixpoint Next_loop (self : StringVessel) (rs : list (Z * Z)) (i : Z)
  : Z * bool :=
  match rs with
  | [] => (0, false)
  | (_, v) :: rs' =>
    if i =? Offset (position self) then (v, true)
    else Next_loop self rs' (int_add i 1)
  end.

Definition Next (self : StringVessel) : Z * bool :=
  if len (input self) <? int_add (Offset (position self)) 1
  then (0, false)
  else Next_loop self (range (input self)) 0.

Definition SetPosition (self : StringVessel) (pos : Position) : StringVessel :=
  mkStringVessel (state self) (input self) pos (spec self).

Definition GetPosition (self : StringVessel) : Position := position self.

Definition set_Offset (pos : Position) (o : Z) : Position :=
  mkPosition (Name pos) (Line pos) (Column pos) o.

Definition Pop (self : StringVessel) (i : Z) : StringVessel :=
  SetPosition self
    (set_Offset (position self) (int_add (Offset (position self)) i)).

Definition Push (self : StringVessel) (i : Z) : StringVessel :=
  SetPosition self
    (set_Offset (position self) (int_sub (Offset (position self)) i)).

Definition SetInput (self : StringVessel) (in_ : Input)
  : outcome StringVessel :=
  s <- as_string in_ ;;
  Done (mkStringVessel (state self) s (position self) (spec self)).

Definition GetSpec (self : StringVessel) : Spec := spec self.

Definition SetSpec (self : StringVessel) (sp : Spec) : StringVessel :=
  mkStringVessel (state self) (input self) (position self) sp.

(** ** Parsers and combinators *)

(** [func(Vessel) (Output, bool)]: the two results and the vessel as the
    call leaves it. *)
Definition Parser : Type := StringVessel -> outcome (Output * bool * StringVessel).

Definition Satisfy (check : Z -> bool) : Parser :=
  fun in_ =>
    let '(target, ok) := Next in_ in
    if ok && check target
    then Done (VInt target, true, Pop in_ 1)
    else Done (VNil, false, in_).

(** The [for] loop of [Many]; [fuel] bounds the number of iterations. *)
Fixpoint Many_loop (fuel : nat) (match_ : Parser) (matches : list Value)
  (in_ : StringVessel) : outcome (Output * bool * StringVessel) :=
  match fuel with
  | O => OutOfFuel
  | S fuel' =>
    '(out, parsed, in1) <- match_ in_ ;;
    if negb parsed then Done (VSlice matches, true, in1)
    else Many_loop fuel' match_ (matches ++ [out]) in1
  end.

Definition Many (fuel : nat) (match_ : Parser) : Parser :=
  fun in_ => Many_loop fuel match_ [] in_.

Definition Whitespace (fuel : nat) : Parser :=
  fun in_ => Many fuel (Satisfy IsSpace) in_.

Definition Lexeme (fuel : nat) (match_ : Parser) : Parser :=
  fun in_ =>
    '(out, matched, in1) <- match_ in_ ;;
    '(_, _, in2) <- Whitespace fuel in1 ;;
    Done (out, matched, in2).

Fixpoint SepBy_loop (fuel : nat) (delim match_ : Parser)
  (matches : list Value) (in_ : StringVessel)
  : outcome (Output * bool * StringVessel) :=
  match fuel with
  | O => OutOfFuel
  | S fuel' =>
    '(out, parsed, in1) <- match_ in_ ;;
    if negb parsed then Done (VVector matches, true, in1)
    else
      '(_, sep, in2) <- delim in1 ;;
      if negb sep then Done (VVector (matches ++ [out]), true, in2)
      else SepBy_loop fuel' delim match_ (matches ++ [out]) in2
  end.

Definition SepBy (fuel : nat) (delim match_ : Parser) : Parser :=
  fun in_ => SepBy_loop fuel delim match_ [] in_.

(** [parsers ...]: the arguments in order, each one a [Parser]. *)
Fixpoint Any (parsers : list Parser) : Parser :=
  fun in_ =>
    match parsers with
    | [] => Done (VNil, false, in_)
    | parser :: rest =>
      '(match_, ok, in1) <- parser in_ ;;
      if ok then Done (match_, ok, in1) else Any rest in1
    end.

Fixpoint All_loop (parsers : list Parser) (match_ : Output) (ok : bool)
  (in_ : StringVessel) : outcome (Output * bool * StringVessel) :=
  match parsers with
  | [] => Done (match_, ok, in_)
  | parser :: rest =>
    '(match1, ok1, in1) <- parser in_ ;;
    if negb ok1 then Done (match1, ok1, in1)
    else All_loop rest match1 ok1 in1
  end.

Definition All (parsers : list Parser) : Parser :=
  fun in_ => All_loop parsers VNil false in_.

Fixpoint Collect_loop (parsers : list Parser) (matches : list Value)
  (in_ : StringVessel) : outcome (Output * bool * StringVessel) :=
  match parsers with
  | [] => Done (VVector matches, true, in_)
  | parser :: rest =>
    '(match_, ok, in1) <- parser in_ ;;
    if negb ok then Done (VNil, false, in1)
    else Collect_loop rest (matches ++ [match_]) in1
  end.

Definition Collect (parsers : list Parser) : Parser :=
  fun in_ => Collect_loop parsers [] in_.

Definition Try (match_ : Parser) : Parser :=
  fun in_ =>
    let st := GetState in_ in
    let pos := GetPosition in_ in
    '(out, ok, in1) <- match_ in_ ;;
    if negb ok
    then Done (out, ok, SetPosition (SetState in1 st) pos)
    else Done (out, ok, in1).

Definition Between (begin end_ match_ : Parser) : Parser :=
  fun in_ =>
    '(parse, ok, in1) <- Try (Collect [begin; match_; end_]) in_ ;;
    if negb ok then Done (VNil, false, in1)
    else
      xs <- as_vector parse ;;
      x <- At xs 1 ;;
      Done (x, true, in1).

Definition String (str : string) : Parser :=
  fun in_ =>
    s <- as_string (GetInput in_) ;;
    if HasPrefix s str
    then Done (VString str, true, Pop in_ (len str))
    else Done (VNil, false, in_).

Definition Symbol (fuel : nat) (str : string) : Parser :=
  Lexeme fuel (String str).

Definition Parens (fuel : nat) (match_ : Parser) : Parser :=
  Lexeme fuel (Between (Symbol fuel "(") (Symbol fuel ")") match_).

(** [rest[k] = v.(int)] for every element of [ns]. *)
Fixpoint ints_of (ns : list Value) : outcome (list Z) :=
  match ns with
  | [] => Done []
  | v :: ns' =>
    n <- as_int v ;;
    rest <- ints_of ns' ;;
    Done (n :: rest)
  end.

Variable call : P -> Parser.

Definition Identifier (fuel : nat) : Parser :=
  fun in_ =>
    let sp := GetSpec in_ in
    '(n, ok, in1) <- call (IdentStart sp) in_ ;;
    if negb ok then Done (VNil, ok, in1)
    else
      '(ns, ok, in2) <- Many fuel (call (IdentLetter sp)) in1 ;;
      if negb ok then Done (VNil, ok, in2)
      else
        xs <- as_slice ns ;;
        rest <- ints_of xs ;;
        c <- as_int n ;;
        Done (VString (encode_rune c ++ encode_runes rest), ok, in2).

(** [R(&parser)]: the call goes to the parser the reference holds. *)
Definition R (parser : Parser) : Parser :=
  fun in_ => parser in_.

End Vessel.

Arguments mkSpec {P}.
Arguments mkStringVessel {P}.
Arguments state {P}.
Arguments input {P}.
Arguments position {P}.
Arguments spec {P}.
Arguments IdentStart {P}.
Arguments IdentLetter {P}.
Arguments GetState {P}.
Arguments SetState {P}.
Arguments GetInput {P}.
Arguments Get {P}.
Arguments Next {P}.
Arguments Next_loop {P}.
Arguments Get_loop {P}.
Arguments GetInput_loop {P}.
Arguments GetPosition {P}.
Arguments SetPosition {P}.
Arguments Pop {P}.
Arguments Push {P}.
Arguments SetInput {P}.
Arguments GetSpec {P}.
Arguments SetSpec {P}.
Arguments Satisfy {P}.
Arguments Many_loop {P}.
Arguments Many {P}.
Arguments Whitespace {P}.
Arguments Lexeme {P}.
Arguments SepBy_loop {P}.
Arguments SepBy {P}.
Arguments Any {P}.
Arguments All_loop {P}.
Arguments All {P}.
Arguments Collect_loop {P}.
Arguments Collect {P}.
Arguments Try {P}.
Arguments Between {P}.
Arguments String {P}.
Arguments Symbol {P}.
Arguments Parens {P}.
Arguments Identifier {P}.
Arguments R {P}.

(** ** Notions the properties are stated with *)

Section Notions.

Context {P : Type}.

(** The vessel with its offset moved to [o], nothing else touched. *)
Definition at_offset (v : StringVessel P) (o : Z) : StringVessel P :=
  mkStringVessel (state v) (input v) (set_Offset (position v) o) (spec v).

(** The elements (characters) of the input from the current offset on. *)
Definition remaining (v : StringVessel P) : list Z :=
  if Offset (position v) <? 0 then []
  else skipn (Z.to_nat (Offset (position v))) (runes (input v)).

(** The next element, when there is one. *)
Definition next_element (v : StringVessel P) : option Z :=
  hd_error (remaining v).

(** The longest run of white space at the head of a list of elements. *)
Fixpoint leading_spaces (cs : list Z) : list Z :=
  match cs with
  | [] => []
  | c :: cs' => if IsSpace c then c :: leading_spaces cs' else []
  end.

(** The vessel moved past the white space that follows its offset. *)
Definition skip_spaces (v : StringVessel P) : StringVessel P :=
  at_offset v
    (Offset (position v) + Z.of_nat (List.length (leading_spaces (remaining v)))).

(** [runs q v outs v']: from [v], the parser [q] succeeds [length outs]
    times in a row with the outputs [outs], then fails and leaves [v']. *)
Inductive runs (q : Parser P)
  : StringVessel P -> list Output -> StringVessel P -> Prop :=
| runs_fail v out v' :
    q v = Done (out, false, v') -> runs q v [] v'
| runs_more v out v1 outs v' :
    q v = Done (out, true, v1) -> runs q v1 outs v' ->
    runs q v (out :: outs) v'.

(** [sep_runs delim p v outs v']: from [v], alternating [p] and [delim]
    until one of them fails; [outs] are the outputs of [p]. *)
Inductive sep_runs (delim p : Parser P)
  : StringVessel P -> list Output -> StringVessel P -> Prop :=
| sep_runs_fail v out v' :
    p v = Done (out, false, v') -> sep_runs delim p v [] v'
| sep_runs_last v out v1 d v' :
    p v = Done (out, true, v1) -> delim v1 = Done (d, false, v') ->
    sep_runs delim p v [out] v'
| sep_runs_more v out v1 d v2 outs v' :
    p v = Done (out, true, v1) -> delim v1 = Done (d, true, v2) ->
    sep_runs delim p v2 outs v' ->
    sep_runs delim p v (out :: outs) v'.

(** A parser that leaves the input string and the [Spec] as it found them,
    however it ends. *)
Definition keeps_input_and_spec (q : Parser P) : Prop :=
  forall v out ok v',
    q v = Done (out, ok, v') -> input v' = input v /\ spec v' = spec v.

(** The state and position of [v0] put back into [v]. *)
Definition reverted (v0 v : StringVessel P) : StringVessel P :=
  mkStringVessel (state v0) (input v) (position v0) (spec v).

(** [Between] as the specification words it: the three parsers in a row;
    the middle output when all three match, and otherwise no match with
    state and position as they were before the call. *)
Definition Between_spec (begin end_ match_ : Parser P) : Parser P :=
  fun in_ =>
    '(_, ok1, in1) <- begin in_ ;;
    if negb ok1 then Done (VNil, false, reverted in_ in1)
    else
      '(out, ok2, in2) <- match_ in1 ;;
      if negb ok2 then Done (VNil, false, reverted in_ in2)
      else
        '(_, ok3, in3) <- end_ in2 ;;
        if negb ok3 then Done (VNil, false, reverted in_ in3)
        else Done (out, true, in3).

(** The middle one of the three outputs [Collect] gathered, or the failed
    result as it is. *)
Definition middle_of (r : Output * bool * StringVessel P)
  : outcome (Output * bool * StringVessel P) :=
  let '(out, ok, v) := r in
  if ok then
    match out with
    | VVector [_; x; _] => Done (x, true, v)
    | _ => Panic
    end
  else Done (out, false, v).

End Notions.

(** The parsers built with the library: its combinators applied to each
    other, to the parsers the [Spec] stores (run by [call]), and to parsers
    of the caller that keep input and [Spec] themselves. *)
Inductive library {P : Type} (call : P -> Parser P) : Parser P -> Prop :=
| lib_given q : keeps_input_and_spec q -> library call q
| lib_Satisfy check : library call (Satisfy check)
| lib_String str : library call (String str)
| lib_Whitespace fuel : library call (Whitespace fuel)
| lib_Identifier fuel :
    (forall p, keeps_input_and_spec (call p)) ->
    library call (Identifier call fuel)
| lib_Many fuel q : library call q -> library call (Many fuel q)
| lib_SepBy fuel d q :
    library call d -> library call q -> library call (SepBy fuel d q)
| lib_Any qs :
    (forall q, In q qs -> library call q) -> library call (Any qs)
| lib_All qs :
    (forall q, In q qs -> library call q) -> library call (All qs)
| lib_Collect qs :
    (forall q, In q qs -> library call q) -> library call (Collect qs)
| lib_Between b e q :
    library call b -> library call e -> library call q ->
    library call (Between b e q)
| lib_Try q : library call q -> library call (Try q)
| lib_Lexeme fuel q : library call q -> library call (Lexeme fuel q)
| lib_Symbol fuel str : library call (Symbol fuel str)
| lib_Parens fuel q : library call q -> library call (Parens fuel q)
| lib_R q : library call q -> library call (R q).

(** ** Concrete vessels *)

(** Stored parsers for the examples: a character class, run through
    [Satisfy], or a literal, run through [String]. *)
Inductive stored : Type :=
| Class (check : Z -> bool)
| Literal (str : string).

Definition run_stored (p : stored) : Parser stored :=
  match p with
  | Class check => Satisfy check
  | Literal str => String str
  end.

Definition is_digit (c : Z) : bool := (48 <=? c) && (c <=? 57).
Definition is_letter (c : Z) : bool :=
  ((65 <=? c) && (c <=? 90)) || ((97 <=? c) && (c <=? 122)).
Definition is_ident_letter (c : Z) : bool := is_letter c || is_digit c.

Definition example_spec (start letter : stored) : Spec stored :=
  mkSpec "/*" "*/" "//" false start letter
         (Class (fun _ => false)) (Class (fun _ => false)) [] [] true.

(** A fresh vessel over [s]: offset 0, no state. *)
Definition vessel_of (s : string) : StringVessel stored :=
  mkStringVessel VNil s (mkPosition "" 1 1 0)
    (example_spec (Class is_letter) (Class is_ident_letter)).

(** A parser of the caller's own: it consumes two elements, overwrites the
    state, and then reports no match. *)
Definition consume_and_fail : Parser stored :=
  fun in_ => Done (VNil, false, SetState (Pop in_ 2) (VInt 7)).

(** The two bytes of U+00E9. *)
Definition e_acute : string :=
  String.String (ascii_of 195) (String.String (ascii_of 169) EmptyString).

(** ** Further notions: sequences, runs of elements, invariants *)

Section MoreNotions.

Context {P : Type}.

(** The longest run of elements at the head of a list that [check]
    accepts. *)
Fixpoint leading (check : Z -> bool) (cs : list Z) : list Z :=
  match cs with
  | [] => []
  | c :: cs' => if check c then c :: leading check cs' else []
  end.

(** Whether the list [cs] begins with the list [pre]. *)
Fixpoint begins_with (pre cs : list Z) : bool :=
  match pre, cs with
  | [], _ => true
  | _ :: _, [] => false
  | x :: pre', c :: cs' => (x =? c) && begins_with pre' cs'
  end.

(** [seq_runs ps v outs v']: from [v], the parsers [ps] succeed one after
    the other with the outputs [outs] and leave [v']. *)
Inductive seq_runs
  : list (Parser P) -> StringVessel P -> list Output -> StringVessel P -> Prop :=
| seq_runs_nil v : seq_runs [] v [] v
| seq_runs_cons p ps v out v1 outs v' :
    p v = Done (out, true, v1) -> seq_runs ps v1 outs v' ->
    seq_runs (p :: ps) v (out :: outs) v'.

(** A parser whose every return relates the vessel it was given to the
    vessel it leaves by [rel]. *)
Definition respects (rel : StringVessel P -> StringVessel P -> Prop)
  (q : Parser P) : Prop :=
  forall v out ok v', q v = Done (out, ok, v') -> rel v v'.

(** Name, line and column of the position are the same in both vessels. *)
Definition same_line_column (v v' : StringVessel P) : Prop :=
  Name (position v') = Name (position v) /\
  Line (position v') = Line (position v) /\
  Column (position v') = Column (position v).

(** The input is the same and the offset has not moved backwards, nor
    beyond the byte length of the input when it was not there before. *)
Definition moves_forward (v v' : StringVessel P) : Prop :=
  input v' = input v /\
  (len (input v) <= max_int -> is_int (Offset (position v)) ->
   Offset (position v) <= Offset (position v')
   <= Z.max (Offset (position v)) (len (input v))).

End MoreNotions.

(** The parsers built with the library over parsers that respect [rel]: the
    closure of [library], with [rel] in the place of keeping input and
    [Spec]. *)
Inductive built {P : Type} (rel : StringVessel P -> StringVessel P -> Prop)
  (call : P -> Parser P) : Parser P -> Prop :=
| built_given q : respects rel q -> built rel call q
| built_Satisfy check : built rel call (Satisfy check)
| built_String str : built rel call (String str)
| built_Whitespace fuel : built rel call (Whitespace fuel)
| built_Identifier fuel :
    (forall p, respects rel (call p)) -> built rel call (Identifier call fuel)
| built_Many fuel q : built rel call q -> built rel call (Many fuel q)
| built_SepBy fuel d q :
    built rel call d -> built rel call q -> built rel call (SepBy fuel d q)
| built_Any qs :
    (forall q, In q qs -> built rel call q) -> built rel call (Any qs)
| built_All qs :
    (forall q, In q qs -> built rel call q) -> built rel call (All qs)
| built_Collect qs :
    (forall q, In q qs -> built rel call q) -> built rel call (Collect qs)
| built_Between b e q :
    built rel call b -> built rel call e -> built rel call q ->
    built rel call (Between b e q)
| built_Try q : built rel call q -> built rel call (Try q)
| built_Lexeme fuel q : built rel call q -> built rel call (Lexeme fuel q)
| built_Symbol fuel str : built rel call (Symbol fuel str)
| built_Parens fuel q : built rel call q -> built rel call (Parens fuel q)
| built_R q : built rel call q -> built rel call (R q).

(** ** Integers and strings *)

Lemma int_wrap_small (z : Z) : is_int z -> int_wrap z = z.
Proof.
  unfold is_int, int_wrap, min_int, max_int, int_bits. intros Hz.
  change (2 ^ (64 - 1)) with 9223372036854775808 in *.
  change (2 ^ 64) with 18446744073709551616.
  rewrite Z.mod_small; lia.
Qed.

Lemma int_add_small (a b : Z) : is_int (a + b) -> int_add a b = a + b.
Proof. apply int_wrap_small. Qed.

Lemma max_int_pos : 0 < max_int.
Proof. reflexivity. Qed.

Lemma min_int_neg : min_int < 0.
Proof. reflexivity. Qed.

Lemma slice_from_length (w : nat) :
  forall s, String.length (slice_from w s) = (String.length s - w)%nat.
Proof.
  induction w as [|w IH]; intros s; simpl.
  - lia.
  - destruct s as [|a t]; simpl; [reflexivity | apply IH].
Qed.

Lemma decode_rune_width (a : ascii) (t : string) :
  (1 <= snd (decode_rune (String.String a t)) <= S (String.length t))%nat.
Proof.
  unfold decode_rune.
  repeat match goal with
         | |- context [if ?b then _ else _] => destruct b
         | |- context [match ?x with EmptyString => _ | String.String _ _ => _ end] =>
           destruct x
         end; simpl; lia.
Qed.

Lemma range_from_length (n : nat) :
  forall o s, (List.length (range_from n o s) <= String.length s)%nat.
Proof.
  induction n as [|n IH]; intros o s; simpl.
  - lia.
  - destruct s as [|a t]; [simpl; lia|].
    pose proof (decode_rune_width a t) as Hw.
    destruct (decode_rune (String.String a t)) as [r w]. simpl in Hw.
    cbn [List.length].
    specialize (IH (o + w)%nat (slice_from w (String.String a t))).
    rewrite slice_from_length in IH. cbn [String.length] in *. lia.
Qed.

Lemma runes_length (s : string) : Z.of_nat (List.length (runes s)) <= len s.
Proof.
  unfold runes, range, len. rewrite length_map.
  pose proof (range_from_length (String.length s) O s). lia.
Qed.

Lemma range_from_ascii (s : string) :
  forall n o,
    (String.length s <= n)%nat -> ascii_only s = true ->
    List.length (range_from n o s) = String.length s.
Proof.
  induction s as [|a t IH]; intros n o Hn Hs.
  - destruct n; reflexivity.
  - destruct n as [|n]; cbn [String.length] in Hn; [lia|].
    cbn [ascii_only] in Hs. apply andb_prop in Hs. destruct Hs as [Ha Ht].
    cbn [range_from decode_rune]. rewrite Ha.
    cbn [slice_from List.length String.length].
    rewrite IH by (assumption || lia). reflexivity.
Qed.

(** In a string of single-byte characters, characters and bytes are
    counted alike. *)
Lemma runes_ascii_length (s : string) :
  ascii_only s = true -> Z.of_nat (List.length (runes s)) = len s.
Proof.
  intros Hs. unfold runes, range, len. rewrite length_map.
  rewrite range_from_ascii by (assumption || lia). reflexivity.
Qed.

Lemma hd_error_skipn {A : Type} (n : nat) :
  forall l : list A, hd_error (skipn n l) = nth_error l n.
Proof.
  induction n as [|n IH]; intros [|x l]; simpl; auto.
Qed.

(** ** The vessel's view of its input *)

Section VesselFacts.

Context {P : Type}.
Implicit Types v : StringVessel P.

Lemma at_offset_same v : at_offset v (Offset (position v)) = v.
Proof. destruct v as [st s [nm l c o] sp]. reflexivity. Qed.

Lemma Pop_at_offset v (i : Z) :
  Pop v i = at_offset v (int_add (Offset (position v)) i).
Proof. reflexivity. Qed.

Lemma Next_loop_nth v :
  forall (rs : list (Z * Z)) (i : Z),
    0 <= i -> i + Z.of_nat (List.length rs) <= max_int ->
    Next_loop v rs i =
    match (if Offset (position v) <? i then None
           else nth_error rs (Z.to_nat (Offset (position v) - i))) with
    | Some (_, c) => (c, true)
    | None => (0, false)
    end.
Proof.
  induction rs as [|[o c] rs IH]; intros i Hi Hb; simpl.
  - destruct (Offset (position v) <? i); [reflexivity|].
    destruct (Z.to_nat _); reflexivity.
  - cbn [List.length] in Hb.
    destruct (Z.eqb_spec i (Offset (position v))) as [->|Hne].
    + rewrite Z.ltb_irrefl, Z.sub_diag. reflexivity.
    + rewrite int_add_small
        by (unfold is_int; pose proof min_int_neg; lia).
      rewrite IH by lia.
      destruct (Z.ltb_spec (Offset (position v)) i);
        destruct (Z.ltb_spec (Offset (position v)) (i + 1));
        try lia; try reflexivity.
      replace (Z.to_nat (Offset (position v) - i))
        with (S (Z.to_nat (Offset (position v) - (i + 1)))) by lia.
      reflexivity.
Qed.

Lemma next_element_nth v :
  next_element v =
  if Offset (position v) <? 0 then None
  else option_map snd
         (nth_error (range (input v)) (Z.to_nat (Offset (position v)))).
Proof.
  unfold next_element, remaining.
  destruct (Offset (position v) <? 0); [reflexivity|].
  rewrite hd_error_skipn. unfold runes. apply nth_error_map.
Qed.

Lemma next_element_bound v (c : Z) :
  next_element v = Some c ->
  0 <= Offset (position v) < len (input v).
Proof.
  unfold next_element, remaining. intros H.
  destruct (Z.ltb_spec (Offset (position v)) 0) as [Hneg|Hpos];
    [discriminate|].
  rewrite hd_error_skipn in H.
  assert (Hn : nth_error (runes (input v)) (Z.to_nat (Offset (position v)))
               <> None) by congruence.
  apply nth_error_Some in Hn.
  pose proof (runes_length (input v)). lia.
Qed.

(** [Next] returns the next element, and reports its absence. *)
Lemma Next_spec v :
  len (input v) <= max_int ->
  Next v = match next_element v with
           | Some c => (c, true)
           | None => (0, false)
           end.
Proof.
  intros Hlen. unfold Next.
  pose proof (runes_length (input v)) as Hr.
  assert (Hrange : Z.of_nat (List.length (range (input v))) <= max_int)
    by (unfold runes in Hr; rewrite length_map in Hr; lia).
  destruct (Z.ltb_spec (len (input v)) (int_add (Offset (position v)) 1))
    as [Hguard|Hguard].
  - destruct (next_element v) as [c|] eqn:E; [|reflexivity].
    apply next_element_bound in E.
    rewrite int_add_small in Hguard
      by (unfold is_int; pose proof min_int_neg; lia).
    lia.
  - rewrite Next_loop_nth by lia.
    rewrite next_element_nth, Z.sub_0_r.
    destruct (Offset (position v) <? 0); [reflexivity|].
    destruct (nth_error _ _) as [[o c]|]; reflexivity.
Qed.

Lemma remaining_cons v (c : Z) (cs : list Z) :
  remaining v = c :: cs ->
  0 <= Offset (position v) < len (input v) /\
  remaining (at_offset v (Offset (position v) + 1)) = cs.
Proof.
  intros H.
  assert (Hb : 0 <= Offset (position v) < len (input v))
    by (apply (next_element_bound v c); unfold next_element; rewrite H;
        reflexivity).
  split; [exact Hb|].
  unfold remaining in *. cbn [at_offset position Offset set_Offset input].
  destruct (Z.ltb_spec (Offset (position v)) 0); [lia|].
  destruct (Z.ltb_spec (Offset (position v) + 1) 0); [lia|].
  replace (Z.to_nat (Offset (position v) + 1))
    with (1 + Z.to_nat (Offset (position v)))%nat by lia.
  rewrite <- skipn_skipn, H. reflexivity.
Qed.

(** What [String] does: the test is on the byte view from the offset, and
    a match pops the byte length of the literal. *)
Lemma String_cases (str : string) v :
  String str v =
  if HasPrefix (GetInput_loop v (range (input v)) 0) str
  then Done (VString str, true,
             at_offset v (int_add (Offset (position v)) (len str)))
  else Done (VNil, false, v).
Proof. reflexivity. Qed.

(** What [Satisfy] does, by the next element. *)
Lemma Satisfy_cases (check : Z -> bool) v :
  len (input v) <= max_int ->
  Satisfy check v =
  match next_element v with
  | Some c =>
    if check c
    then Done (VInt c, true, at_offset v (Offset (position v) + 1))
    else Done (VNil, false, v)
  | None => Done (VNil, false, v)
  end.
Proof.
  intros Hlen. unfold Satisfy. rewrite (Next_spec v Hlen).
  destruct (next_element v) as [c|] eqn:E; [|reflexivity].
  cbn [andb]. destruct (check c); [|reflexivity].
  rewrite Pop_at_offset.
  apply next_element_bound in E.
  rewrite int_add_small by (unfold is_int; pose proof min_int_neg; lia).
  reflexivity.
Qed.

End VesselFacts.

(** ** Repetition: [Many] and [SepBy] *)

Section Repetition.

Context {P : Type}.
Implicit Types (v : StringVessel P) (q : Parser P).

Lemma Many_loop_sound q :
  forall fuel acc v out ok v',
    Many_loop fuel q acc v = Done (out, ok, v') ->
    ok = true /\ exists outs, out = VSlice (acc ++ outs) /\ runs q v outs v'.
Proof.
  induction fuel as [|fuel IH]; intros acc v out ok v' H; simpl in H.
  - discriminate.
  - destruct (q v) as [[[o parsed] v1]| |] eqn:E; simpl in H;
      try discriminate.
    destruct parsed; simpl in H.
    + apply IH in H. destruct H as [Hok [outs [Hout Hruns]]].
      split; [exact Hok|]. exists (o :: outs). split.
      * rewrite Hout, <- app_assoc. reflexivity.
      * eapply runs_more; eauto.
    + inversion H; subst. split; [reflexivity|]. exists []. split.
      * rewrite app_nil_r. reflexivity.
      * eapply runs_fail; eauto.
Qed.

Lemma Many_loop_complete q v outs v' :
  runs q v outs v' ->
  forall fuel acc,
    (List.length outs < fuel)%nat ->
    Many_loop fuel q acc v = Done (VSlice (acc ++ outs), true, v').
Proof.
  induction 1 as [v out v' Hq | v out v1 outs v' Hq Hruns IH];
    intros [|fuel] acc Hfuel; cbn [List.length] in Hfuel; try lia; simpl;
    rewrite Hq; simpl.
  - rewrite app_nil_r. reflexivity.
  - rewrite IH by lia. rewrite <- app_assoc. reflexivity.
Qed.

Lemma SepBy_loop_sound (d q : Parser P) :
  forall fuel acc v out ok v',
    SepBy_loop fuel d q acc v = Done (out, ok, v') ->
    ok = true /\
    exists outs, out = VVector (acc ++ outs) /\ sep_runs d q v outs v'.
Proof.
  induction fuel as [|fuel IH]; intros acc v out ok v' H; simpl in H.
  - discriminate.
  - destruct (q v) as [[[o parsed] v1]| |] eqn:E; simpl in H;
      try discriminate.
    destruct parsed; simpl in H.
    + destruct (d v1) as [[[o2 sep] v2]| |] eqn:E2; simpl in H;
        try discriminate.
      destruct sep; simpl in H.
      * apply IH in H. destruct H as [Hok [outs [Hout Hruns]]].
        split; [exact Hok|]. exists (o :: outs). split.
        -- rewrite Hout, <- app_assoc. reflexivity.
        -- eapply sep_runs_more; eauto.
      * inversion H; subst. split; [reflexivity|]. exists [o]. split.
        -- reflexivity.
        -- eapply sep_runs_last; eauto.
    + inversion H; subst. split; [reflexivity|]. exists []. split.
      * rewrite app_nil_r. reflexivity.
      * eapply sep_runs_fail; eauto.
Qed.

Lemma SepBy_loop_complete (d q : Parser P) v outs v' :
  sep_runs d q v outs v' ->
  forall fuel acc,
    (List.length outs < fuel)%nat ->
    SepBy_loop fuel d q acc v = Done (VVector (acc ++ outs), true, v').
Proof.
  induction 1 as [v out v' Hq | v out v1 o2 v' Hq Hd
                 | v out v1 o2 v2 outs v' Hq Hd Hruns IH];
    intros [|fuel] acc Hfuel; cbn [List.length] in Hfuel; try lia; simpl;
    rewrite Hq; simpl.
  - rewrite app_nil_r. reflexivity.
  - rewrite Hd. reflexivity.
  - rewrite Hd. simpl. rewrite IH by lia. rewrite <- app_assoc. reflexivity.
Qed.

Lemma String_empty v :
  String "" v = Done (VString "", true, Pop v (len "")).
Proof.
  unfold String, GetInput, HasPrefix. cbn [as_string bind].
  destruct (GetInput_loop v (range (input v)) 0); reflexivity.
Qed.

(** [String ""] matches everywhere, so a loop over it uses up any budget. *)
Lemma Many_loop_String_empty :
  forall fuel acc v, Many_loop fuel (String "") acc v = OutOfFuel.
Proof.
  induction fuel as [|fuel IH]; intros acc v; [reflexivity|].
  cbn [Many_loop]. rewrite String_empty.
  cbn [bind negb]. apply IH.
Qed.

Lemma SepBy_loop_String_empty :
  forall fuel acc v,
    SepBy_loop fuel (String "") (String "") acc v = OutOfFuel.
Proof.
  induction fuel as [|fuel IH]; intros acc v; [reflexivity|].
  cbn [SepBy_loop]. rewrite String_empty.
  cbn [bind negb]. rewrite String_empty.
  cbn [bind negb]. apply IH.
Qed.

End Repetition.

(** ** White space *)

Section WhiteSpace.

Context {P : Type}.
Implicit Types (v : StringVessel P) (q : Parser P).

Lemma Many_loop_spaces :
  forall fuel v acc,
    len (input v) <= max_int ->
    (List.length (leading_spaces (remaining v)) < fuel)%nat ->
    Many_loop fuel (Satisfy IsSpace) acc v =
    Done (VSlice (acc ++ map VInt (leading_spaces (remaining v))), true,
          skip_spaces v).
Proof.
  induction fuel as [|fuel IH]; intros v acc Hlen Hfuel; [lia|].
  cbn [Many_loop]. rewrite (Satisfy_cases IsSpace v Hlen).
  unfold next_element, skip_spaces.
  destruct (remaining v) as [|c cs] eqn:E; cbn [hd_error leading_spaces] in *.
  - cbn. rewrite app_nil_r, Z.add_0_r, at_offset_same. reflexivity.
  - destruct (IsSpace c) eqn:Ec.
    + cbn [bind negb]. apply remaining_cons in E. destruct E as [Hb Hrem].
      cbn [List.length] in Hfuel.
      rewrite IH; [| exact Hlen | rewrite Hrem; lia].
      unfold skip_spaces. rewrite Hrem.
      cbn [map List.length at_offset position Offset set_Offset
           state input spec Name Line Column].
      rewrite <- app_assoc. cbn [app].
      replace (Offset (position v) + 1
               + Z.of_nat (List.length (leading_spaces cs)))
        with (Offset (position v)
              + Z.of_nat (S (List.length (leading_spaces cs)))) by lia.
      reflexivity.
    + cbn. rewrite app_nil_r, Z.add_0_r, at_offset_same. reflexivity.
Qed.

(** [Whitespace] returns on every vessel: it consumes the white space that
    follows the offset and nothing more. *)
Lemma Whitespace_spec v (fuel : nat) :
  len (input v) <= max_int ->
  (List.length (leading_spaces (remaining v)) < fuel)%nat ->
  Whitespace fuel v =
  Done (VSlice (map VInt (leading_spaces (remaining v))), true, skip_spaces v).
Proof.
  intros Hlen Hfuel. unfold Whitespace, Many.
  rewrite Many_loop_spaces by assumption. reflexivity.
Qed.

Lemma leading_spaces_stop (cs : list Z) (c : Z) :
  hd_error (skipn (List.length (leading_spaces cs)) cs) = Some c ->
  IsSpace c = false.
Proof.
  induction cs as [|x cs IH]; simpl; [discriminate|].
  destruct (IsSpace x) eqn:Ex; simpl.
  - exact IH.
  - intros H. inversion H; subst. exact Ex.
Qed.

Lemma remaining_skip_spaces v :
  remaining (skip_spaces v) =
  skipn (List.length (leading_spaces (remaining v))) (remaining v).
Proof.
  unfold skip_spaces, remaining at 1 3 4.
  cbn [at_offset position Offset set_Offset input].
  destruct (Z.ltb_spec (Offset (position v)) 0) as [Hneg|Hpos].
  - unfold remaining.
    destruct (Z.ltb_spec (Offset (position v)) 0); [|lia].
    cbn. rewrite Z.add_0_r.
    destruct (Z.ltb_spec (Offset (position v)) 0); [reflexivity|lia].
  - set (k := List.length
                (leading_spaces
                   (skipn (Z.to_nat (Offset (position v)))
                          (runes (input v))))).
    unfold remaining.
    destruct (Z.ltb_spec (Offset (position v)) 0); [lia|]. fold k.
    destruct (Z.ltb_spec (Offset (position v) + Z.of_nat k) 0); [lia|].
    rewrite skipn_skipn. f_equal. lia.
Qed.

End WhiteSpace.

(** ** Which fields a combinator writes *)

Section Frame.

Context {P : Type}.
Implicit Types (v : StringVessel P) (q : Parser P).

Ltac run_step H :=
  match type of H with
  | context [bind (?p ?v) _] =>
    let E := fresh "E" in
    destruct (p v) as [[[? ?] ?]| |] eqn:E; cbn [bind] in H;
    try discriminate
  end.

Lemma keeps_trans v v1 v2 :
  input v1 = input v /\ spec v1 = spec v ->
  input v2 = input v1 /\ spec v2 = spec v1 ->
  input v2 = input v /\ spec v2 = spec v.
Proof. intros [? ?] [? ?]. split; congruence. Qed.

Lemma Satisfy_keeps (check : Z -> bool) :
  keeps_input_and_spec (Satisfy (P := P) check).
Proof.
  intros v out ok v' H. unfold Satisfy in H.
  destruct (Next v) as [target found].
  destruct (found && check target); inversion H; subst; split; reflexivity.
Qed.

Lemma String_keeps (str : string) :
  keeps_input_and_spec (String (P := P) str).
Proof.
  intros v out ok v' H. unfold String, GetInput in H. cbn [as_string bind] in H.
  destruct (HasPrefix _ str); inversion H; subst; split; reflexivity.
Qed.

Lemma Many_loop_keeps q :
  keeps_input_and_spec q ->
  forall fuel acc, keeps_input_and_spec (Many_loop fuel q acc).
Proof.
  intros Hq. induction fuel as [|fuel IH]; intros acc v out ok v' H;
    cbn [Many_loop] in H; [discriminate|].
  run_step H. apply Hq in E.
  destruct b; cbn [negb] in H.
  - apply IH in H. eapply keeps_trans; eauto.
  - inversion H; subst. exact E.
Qed.

Lemma Many_keeps (fuel : nat) q :
  keeps_input_and_spec q -> keeps_input_and_spec (Many fuel q).
Proof. intros Hq. exact (Many_loop_keeps q Hq fuel []). Qed.

Lemma Whitespace_keeps (fuel : nat) :
  keeps_input_and_spec (Whitespace (P := P) fuel).
Proof. exact (Many_keeps fuel _ (Satisfy_keeps IsSpace)). Qed.

Lemma Lexeme_keeps (fuel : nat) q :
  keeps_input_and_spec q -> keeps_input_and_spec (Lexeme fuel q).
Proof.
  intros Hq v out ok v' H. unfold Lexeme in H.
  run_step H. apply Hq in E.
  run_step H. apply Whitespace_keeps in E0.
  inversion H; subst. eapply keeps_trans; eauto.
Qed.

Lemma SepBy_loop_keeps (d q : Parser P) :
  keeps_input_and_spec d -> keeps_input_and_spec q ->
  forall fuel acc, keeps_input_and_spec (SepBy_loop fuel d q acc).
Proof.
  intros Hd Hq. induction fuel as [|fuel IH]; intros acc v out ok v' H;
    cbn [SepBy_loop] in H; [discriminate|].
  run_step H. apply Hq in E.
  destruct b; cbn [negb] in H.
  - run_step H. apply Hd in E0.
    destruct b; cbn [negb] in H.
    + apply IH in H. eapply keeps_trans; [|exact H].
      eapply keeps_trans; eauto.
    + inversion H; subst. eapply keeps_trans; eauto.
  - inversion H; subst. exact E.
Qed.

Lemma Any_keeps (qs : list (Parser P)) :
  (forall q, In q qs -> keeps_input_and_spec q) ->
  keeps_input_and_spec (Any qs).
Proof.
  induction qs as [|q qs IH]; intros Hqs v out ok v' H; cbn [Any] in H.
  - inversion H; subst. split; reflexivity.
  - run_step H. apply (Hqs q (or_introl eq_refl)) in E.
    destruct b.
    + inversion H; subst. exact E.
    + apply IH in H; [|intros q' Hin; apply Hqs; right; exact Hin].
      eapply keeps_trans; eauto.
Qed.

Lemma All_loop_keeps (qs : list (Parser P)) :
  (forall q, In q qs -> keeps_input_and_spec q) ->
  forall m b, keeps_input_and_spec (All_loop qs m b).
Proof.
  induction qs as [|q qs IH]; intros Hqs m b v out ok v' H;
    cbn [All_loop] in H.
  - inversion H; subst. split; reflexivity.
  - run_step H. apply (Hqs q (or_introl eq_refl)) in E.
    destruct b0; cbn [negb] in H.
    + apply IH in H; [|intros q' Hin; apply Hqs; right; exact Hin].
      eapply keeps_trans; eauto.
    + inversion H; subst. exact E.
Qed.

Lemma Collect_loop_keeps (qs : list (Parser P)) :
  (forall q, In q qs -> keeps_input_and_spec q) ->
  forall acc, keeps_input_and_spec (Collect_loop qs acc).
Proof.
  induction qs as [|q qs IH]; intros Hqs acc v out ok v' H;
    cbn [Collect_loop] in H.
  - inversion H; subst. split; reflexivity.
  - run_step H. apply (Hqs q (or_introl eq_refl)) in E.
    destruct b; cbn [negb] in H.
    + apply IH in H; [|intros q' Hin; apply Hqs; right; exact Hin].
      eapply keeps_trans; eauto.
    + inversion H; subst. exact E.
Qed.

Lemma Try_keeps q :
  keeps_input_and_spec q -> keeps_input_and_spec (Try q).
Proof.
  intros Hq v out ok v' H. unfold Try in H.
  run_step H. apply Hq in E.
  destruct b; cbn [negb] in H; inversion H; subst; exact E.
Qed.

Lemma Between_keeps (b e q : Parser P) :
  keeps_input_and_spec b -> keeps_input_and_spec e ->
  keeps_input_and_spec q -> keeps_input_and_spec (Between b e q).
Proof.
  intros Hb He Hq v out ok v' H. unfold Between in H.
  run_step H.
  assert (Hk : input s = input v /\ spec s = spec v).
  { apply (Try_keeps (Collect [b; q; e])) in E; [exact E|].
    apply Collect_loop_keeps. intros q' [<-|[<-|[<-|[]]]]; assumption. }
  destruct b0; cbn [negb] in H.
  - destruct (as_vector o) as [xs| |]; cbn [bind] in H; try discriminate.
    destruct (At xs 1) as [x| |]; cbn [bind] in H; try discriminate.
    inversion H; subst. exact Hk.
  - inversion H; subst. exact Hk.
Qed.

Lemma Identifier_keeps (call : P -> Parser P) (fuel : nat) :
  (forall p, keeps_input_and_spec (call p)) ->
  keeps_input_and_spec (Identifier call fuel).
Proof.
  intros Hcall v out ok v' H. unfold Identifier in H.
  run_step H. apply Hcall in E.
  destruct b; cbn [negb] in H.
  - run_step H. apply (Many_keeps fuel _ (Hcall _)) in E0.
    destruct b; cbn [negb] in H.
    + destruct (as_slice o0) as [xs| |]; cbn [bind] in H; try discriminate.
      destruct (ints_of xs) as [rest| |]; cbn [bind] in H; try discriminate.
      destruct (as_int o) as [c| |]; cbn [bind] in H; try discriminate.
      inversion H; subst. eapply keeps_trans; eauto.
    + inversion H; subst. eapply keeps_trans; eauto.
  - inversion H; subst. exact E.
Qed.

End Frame.

(** ** The type assertions of [Identifier] *)

Lemma ints_of_outcome (xs : list Value) :
  (exists cs, ints_of xs = Done cs) \/ ints_of xs = Panic.
Proof.
  induction xs as [|x xs IH]; [left; exists []; reflexivity|].
  cbn [ints_of]. destruct (as_int x) as [n| |] eqn:Ex; cbn [bind].
  - destruct IH as [[cs Hcs]|Hp]; rewrite ?Hcs, ?Hp; cbn [bind].
    + left. exists (n :: cs). reflexivity.
    + right. reflexivity.
  - right. reflexivity.
  - destruct x; discriminate.
Qed.

Lemma as_int_not_element (x : Value) :
  (forall c, x <> VInt c) -> as_int x = Panic.
Proof.
  intros Hx. destruct x as [|n| | |]; try reflexivity.
  exfalso. exact (Hx n eq_refl).
Qed.

Lemma ints_of_not_element (xs : list Value) :
  (exists x, In x xs /\ forall c, x <> VInt c) -> ints_of xs = Panic.
Proof.
  induction xs as [|y xs IH]; intros [x [Hin Hx]]; [destruct Hin|].
  cbn [ints_of]. destruct Hin as [->|Hin].
  - rewrite (as_int_not_element x Hx). reflexivity.
  - destruct (as_int y) as [n| |] eqn:Ey; cbn [bind]; try reflexivity.
    + rewrite IH by (exists x; split; assumption). reflexivity.
    + destruct y; discriminate.
Qed.

(** ** The properties of the specification *)

Section Claims.

Context {P : Type}.
Implicit Types (v : StringVessel P) (q : Parser P).

(** C1. When [q] fails inside [Try q], the vessel's State and Position after
    [Try q] are those from before the call, whatever [q] consumed or did to
    the state; when [q] succeeds, [Try] leaves the vessel as [q] left it. *)
Theorem Try_reverts q v (out : Output) (ok : bool) v1 :
  q v = Done (out, ok, v1) ->
  exists v2,
    Try q v = Done (out, ok, v2) /\
    (ok = false ->
     GetState v2 = GetState v /\ GetPosition v2 = GetPosition v) /\
    (ok = true -> v2 = v1).
Proof.
  intros Hq. unfold Try. rewrite Hq. cbn [bind].
  destruct ok; cbn [negb]; eexists; (split; [reflexivity|]); split;
    intros Hok; try discriminate; [reflexivity | split; reflexivity].
Qed.

(** C5. If there is a next element and [check] holds for it, [Satisfy check]
    succeeds with that element and moves the offset by exactly 1; at the end
    of the input, or when [check] rejects the next element, it fails and
    leaves the vessel, its offset included, as it was. *)
Theorem Satisfy_next_element (check : Z -> bool) v :
  len (input v) <= max_int ->
  (forall c, next_element v = Some c -> check c = true ->
     Satisfy check v =
     Done (VInt c, true, at_offset v (Offset (position v) + 1))) /\
  (next_element v = None \/
   (exists c, next_element v = Some c /\ check c = false) ->
     Satisfy check v = Done (VNil, false, v)).
Proof.
  intros Hlen. rewrite (Satisfy_cases check v Hlen). split.
  - intros c Hc Hcheck. rewrite Hc, Hcheck. reflexivity.
  - intros [Hnone | [c [Hc Hcheck]]].
    + rewrite Hnone. reflexivity.
    + rewrite Hc, Hcheck. reflexivity.
Qed.

(** C6. [Between begin end p] is [Try (Collect [begin; p; end])] with a
    successful result cut down to the middle output, which is the output of
    [p]; when any of the three fails, State and Position are those from
    before the call. *)
Theorem Between_is_Try_Collect (b e q : Parser P) v :
  Between b e q v = bind (Try (Collect [b; q; e]) v) middle_of /\
  Between b e q v = Between_spec b e q v /\
  (forall out v', Between b e q v = Done (out, false, v') ->
     GetState v' = GetState v /\ GetPosition v' = GetPosition v).
Proof.
  assert (Hspec : Between b e q v = Between_spec b e q v).
  { unfold Between, Between_spec, Try, Collect. cbn [Collect_loop].
    destruct (b v) as [[[o1 ok1] v1]| |]; cbn [bind]; try reflexivity.
    destruct ok1; cbn [negb bind]; [|reflexivity].
    destruct (q v1) as [[[o2 ok2] v2]| |]; cbn [bind]; try reflexivity.
    destruct ok2; cbn [negb bind]; [|reflexivity].
    destruct (e v2) as [[[o3 ok3] v3]| |]; cbn [bind]; try reflexivity.
    destruct ok3; reflexivity. }
  split; [|split; [exact Hspec|]].
  - unfold Between, middle_of, Try, Collect. cbn [Collect_loop].
    destruct (b v) as [[[o1 ok1] v1]| |]; cbn [bind]; try reflexivity.
    destruct ok1; cbn [negb bind]; [|reflexivity].
    destruct (q v1) as [[[o2 ok2] v2]| |]; cbn [bind]; try reflexivity.
    destruct ok2; cbn [negb bind]; [|reflexivity].
    destruct (e v2) as [[[o3 ok3] v3]| |]; cbn [bind]; try reflexivity.
    destruct ok3; reflexivity.
  - intros out v' H. rewrite Hspec in H. unfold Between_spec in H.
    destruct (b v) as [[[o1 ok1] v1]| |]; cbn [bind] in H; try discriminate.
    destruct ok1; cbn [negb] in H;
      [|inversion H; subst; split; reflexivity].
    destruct (q v1) as [[[o2 ok2] v2]| |]; cbn [bind] in H; try discriminate.
    destruct ok2; cbn [negb] in H;
      [|inversion H; subst; split; reflexivity].
    destruct (e v2) as [[[o3 ok3] v3]| |]; cbn [bind] in H; try discriminate.
    destruct ok3; cbn [negb] in H; inversion H; subst; split; reflexivity.
Qed.

(** C2, as amended.  [Many q] never reports failure: whenever it returns,
    matched is true and the Output is the sequence, in order, of the outputs
    of the successful invocations of [q], possibly empty; and it does return
    whenever [q], invoked again and again, fails at some point. *)
Theorem Many_never_fails q v :
  (forall fuel out ok v',
     Many fuel q v = Done (out, ok, v') ->
     ok = true /\ exists outs, out = VSlice outs /\ runs q v outs v') /\
  (forall outs v',
     runs q v outs v' ->
     forall fuel, (List.length outs < fuel)%nat ->
       Many fuel q v = Done (VSlice outs, true, v')).
Proof.
  split.
  - intros fuel out ok v' H. unfold Many in H.
    apply Many_loop_sound in H. exact H.
  - intros outs v' Hruns fuel Hfuel. unfold Many.
    rewrite (Many_loop_complete q v outs v' Hruns fuel []) by exact Hfuel.
    reflexivity.
Qed.

(** C7, as amended.  [SepBy delim p] never reports failure: whenever it
    returns, it reports success with the outputs of [p] in order, the loop
    having stopped at the first failure of [p] or of [delim]; and it does
    return whenever one of the two fails at some point. *)
Theorem SepBy_never_fails (d q : Parser P) v :
  (forall fuel out ok v',
     SepBy fuel d q v = Done (out, ok, v') ->
     ok = true /\ exists outs, out = VVector outs /\ sep_runs d q v outs v') /\
  (forall outs v',
     sep_runs d q v outs v' ->
     forall fuel, (List.length outs < fuel)%nat ->
       SepBy fuel d q v = Done (VVector outs, true, v')).
Proof.
  split.
  - intros fuel out ok v' H. unfold SepBy in H.
    apply SepBy_loop_sound in H. exact H.
  - intros outs v' Hruns fuel Hfuel. unfold SepBy.
    rewrite (SepBy_loop_complete d q v outs v' Hruns fuel []) by exact Hfuel.
    reflexivity.
Qed.

(** C8, as amended.  [Identifier] reports failure exactly when the [Spec]'s
    [IdentStart] does, and then leaves the vessel as [IdentStart] left it.
    It succeeds exactly when [IdentStart] succeeds with an element and
    [Many IdentLetter] returns elements only, and then with the string made
    of the [IdentStart] element followed by the [IdentLetter] elements.
    When [IdentStart] succeeds and [Many IdentLetter] returns, but the
    Output of [IdentStart] or one of the outputs of [IdentLetter] is no
    element, [Identifier] panics; when [IdentStart] succeeds and
    [Many IdentLetter] does not return, [Identifier] does not return. *)
Theorem Identifier_spec (call : P -> Parser P) v :
  (forall fuel o v1,
     call (IdentStart (GetSpec v)) v = Done (o, false, v1) ->
     Identifier call fuel v = Done (VNil, false, v1)) /\
  (forall fuel out v',
     Identifier call fuel v = Done (out, false, v') ->
     exists o, call (IdentStart (GetSpec v)) v = Done (o, false, v')) /\
  (forall fuel c v1 outs cs v2,
     call (IdentStart (GetSpec v)) v = Done (VInt c, true, v1) ->
     runs (call (IdentLetter (GetSpec v))) v1 outs v2 ->
     ints_of outs = Done cs ->
     (List.length outs < fuel)%nat ->
     Identifier call fuel v =
     Done (VString (encode_rune c ++ encode_runes cs), true, v2)) /\
  (forall fuel out v',
     Identifier call fuel v = Done (out, true, v') ->
     exists c v1 outs cs,
       call (IdentStart (GetSpec v)) v = Done (VInt c, true, v1) /\
       runs (call (IdentLetter (GetSpec v))) v1 outs v' /\
       ints_of outs = Done cs /\
       out = VString (encode_rune c ++ encode_runes cs)) /\
  (forall fuel n v1 outs v2,
     call (IdentStart (GetSpec v)) v = Done (n, true, v1) ->
     runs (call (IdentLetter (GetSpec v))) v1 outs v2 ->
     (forall c, n <> VInt c) \/
     (exists x, In x outs /\ forall c, x <> VInt c) ->
     (List.length outs < fuel)%nat ->
     Identifier call fuel v = Panic) /\
  (forall n v1,
     call (IdentStart (GetSpec v)) v = Done (n, true, v1) ->
     (forall fuel r,
        Many fuel (call (IdentLetter (GetSpec v))) v1 <> Done r) ->
     forall fuel r, Identifier call fuel v <> Done r).
Proof.
  split; [|split; [|split; [|split; [|split]]]].
  - intros fuel o v1 Hstart. unfold Identifier. rewrite Hstart. reflexivity.
  - intros fuel out v' H. unfold Identifier in H.
    destruct (call (IdentStart (GetSpec v)) v) as [[[o ok] v1]| |] eqn:Es;
      cbn [bind] in H; try discriminate.
    destruct ok; cbn [negb] in H.
    + destruct (Many fuel (call (IdentLetter (GetSpec v))) v1)
        as [[[ns ok] v2]| |] eqn:Em; cbn [bind] in H; try discriminate.
      unfold Many in Em. apply Many_loop_sound in Em. destruct Em as [-> _].
      cbn [negb] in H.
      destruct (as_slice ns) as [xs| |]; cbn [bind] in H; try discriminate.
      destruct (ints_of xs) as [rest| |]; cbn [bind] in H; try discriminate.
      destruct (as_int o) as [c| |]; cbn [bind] in H; discriminate.
    + inversion H; subst. exists o. reflexivity.
  - intros fuel c v1 outs cs v2 Hstart Hruns Hints Hfuel.
    unfold Identifier. rewrite Hstart. cbn [bind negb].
    unfold Many.
    rewrite (Many_loop_complete _ v1 outs v2 Hruns fuel []) by exact Hfuel.
    cbn [bind negb as_slice app]. rewrite Hints. reflexivity.
  - intros fuel out v' H. unfold Identifier in H.
    destruct (call (IdentStart (GetSpec v)) v) as [[[o ok] v1]| |] eqn:Es;
      cbn [bind] in H; try discriminate.
    destruct ok; cbn [negb] in H; [|discriminate].
    destruct (Many fuel (call (IdentLetter (GetSpec v))) v1)
      as [[[ns ok] v2]| |] eqn:Em; cbn [bind] in H; try discriminate.
    unfold Many in Em. apply Many_loop_sound in Em.
    destruct Em as [-> [outs [-> Hruns]]]. cbn [negb as_slice bind app] in H.
    destruct (ints_of outs) as [cs| |] eqn:Ei; cbn [bind] in H;
      try discriminate.
    destruct o as [|c| | |]; cbn [as_int bind] in H; try discriminate.
    inversion H; subst. exists c, v1, outs, cs.
    repeat split; try reflexivity; assumption.
  - intros fuel n v1 outs v2 Hstart Hruns Hbad Hfuel.
    unfold Identifier. rewrite Hstart. cbn [bind negb].
    unfold Many.
    rewrite (Many_loop_complete _ v1 outs v2 Hruns fuel []) by exact Hfuel.
    cbn [bind negb as_slice app].
    destruct Hbad as [Hn|Hx].
    + destruct (ints_of_outcome outs) as [[cs Hcs]|Hp].
      * rewrite Hcs. cbn [bind]. rewrite (as_int_not_element n Hn).
        reflexivity.
      * rewrite Hp. reflexivity.
    + rewrite (ints_of_not_element outs Hx). reflexivity.
  - intros n v1 Hstart Hmany fuel r H. unfold Identifier in H.
    rewrite Hstart in H. cbn [bind negb] in H.
    destruct (Many fuel (call (IdentLetter (GetSpec v))) v1)
      as [r1| |] eqn:Em; cbn [bind] in H; try discriminate.
    exact (Hmany fuel r1 Em).
Qed.

(** C9.  [Lexeme p] invokes [p] and then, whether [p] matched or not,
    [Whitespace]; it returns the Output and the match flag of [p], with the
    vessel moved from where [p] left it past the white space that follows,
    so that no white space is next. *)
Theorem Lexeme_skips_after q v (out : Output) (ok : bool) v1 :
  q v = Done (out, ok, v1) ->
  len (input v1) <= max_int ->
  (forall fuel,
     (List.length (leading_spaces (remaining v1)) < fuel)%nat ->
     Lexeme fuel q v = Done (out, ok, skip_spaces v1) /\
     exists ws, Whitespace fuel v1 = Done (ws, true, skip_spaces v1)) /\
  (forall c, next_element (skip_spaces v1) = Some c -> IsSpace c = false).
Proof.
  intros Hq Hlen. split.
  - intros fuel Hfuel. unfold Lexeme. rewrite Hq. cbn [bind].
    rewrite (Whitespace_spec v1 fuel Hlen Hfuel). cbn [bind].
    split; [reflexivity|]. eexists. reflexivity.
  - intros c Hc. unfold next_element in Hc.
    rewrite remaining_skip_spaces in Hc.
    exact (leading_spaces_stop _ _ Hc).
Qed.

(** C10.  A parser built from the library's combinators leaves the input
    string and the [Spec] of the vessel unchanged, whether it succeeds or
    fails: what it writes is the Position and the State. *)
Theorem library_keeps_input_and_spec (call : P -> Parser P) q :
  library call q -> keeps_input_and_spec q.
Proof.
  induction 1 as [q Hq | check | str | fuel | fuel Hcall | fuel q _ IH
                 | fuel d q _ IHd _ IHq | qs _ IH | qs _ IH | qs _ IH
                 | b e q _ IHb _ IHe _ IHq | q _ IH | fuel q _ IH
                 | fuel str | fuel q _ IH | q _ IH].
  - exact Hq.
  - apply Satisfy_keeps.
  - apply String_keeps.
  - apply Whitespace_keeps.
  - apply Identifier_keeps. exact Hcall.
  - apply Many_keeps. exact IH.
  - exact (SepBy_loop_keeps d q IHd IHq fuel []).
  - apply Any_keeps. exact IH.
  - exact (All_loop_keeps qs IH VNil false).
  - exact (Collect_loop_keeps qs IH []).
  - apply Between_keeps; assumption.
  - apply Try_keeps. exact IH.
  - apply Lexeme_keeps. exact IH.
  - apply Lexeme_keeps. apply String_keeps.
  - apply Lexeme_keeps.
    apply Between_keeps; [| | exact IH];
      apply Lexeme_keeps; apply String_keeps.
  - intros v out ok v' H. unfold R in H. exact (IH v out ok v' H).
Qed.

End Claims.

(** ** The properties at concrete vessels *)

Ltac small_input := vm_compute; discriminate.

(** [Try] around a parser that consumed two elements and overwrote the
    state before failing. *)
Lemma Try_reverts_witness :
  exists v2,
    Try consume_and_fail (vessel_of "abc") = Done (VNil, false, v2) /\
    (false = false ->
     GetState v2 = GetState (vessel_of "abc") /\
     GetPosition v2 = GetPosition (vessel_of "abc")) /\
    (false = true ->
     v2 = SetState (Pop (vessel_of "abc") 2) (VInt 7)).
Proof.
  apply (Try_reverts consume_and_fail (vessel_of "abc") VNil false
           (SetState (Pop (vessel_of "abc") 2) (VInt 7))).
  reflexivity.
Defined.

(** [Satisfy] on a letter, on a digit, and at the end of the input. *)
Lemma Satisfy_next_element_witness :
  Satisfy is_letter (vessel_of "a1")
  = Done (VInt 97, true, at_offset (vessel_of "a1") 1) /\
  Satisfy is_letter (vessel_of "1a") = Done (VNil, false, vessel_of "1a") /\
  Satisfy is_letter (vessel_of "") = Done (VNil, false, vessel_of "").
Proof.
  split; [|split].
  - apply (proj1 (Satisfy_next_element is_letter (vessel_of "a1")
                    ltac:(small_input)) 97);
      reflexivity.
  - apply (proj2 (Satisfy_next_element is_letter (vessel_of "1a")
                    ltac:(small_input))).
    right. exists 49. split; reflexivity.
  - apply (proj2 (Satisfy_next_element is_letter (vessel_of "")
                    ltac:(small_input))).
    left. reflexivity.
Defined.

(** [Between] over a closing bracket that is missing: no match, and the
    offset is back at 0. *)
Lemma Between_is_Try_Collect_witness :
  Between (String "(") (String ")") (String "ab") (vessel_of "(ab")
  = Done (VNil, false, vessel_of "(ab") /\
  GetState (vessel_of "(ab") = GetState (vessel_of "(ab") /\
  GetPosition (vessel_of "(ab") = GetPosition (vessel_of "(ab").
Proof.
  split; [reflexivity|].
  apply (proj2 (proj2 (Between_is_Try_Collect
                         (String "(") (String ")") (String "ab")
                         (vessel_of "(ab")))
           VNil (vessel_of "(ab")).
  reflexivity.
Defined.

(** C2, the claim as stated fails: [String ""] matches without consuming,
    so [Many (String "")] never returns, whatever the number of iterations
    allowed. *)
Lemma Many_no_result_counterexample :
  ~ (exists fuel out ok v',
       Many fuel (String "") (vessel_of "abc") = Done (out, ok, v')).
Proof.
  intros [fuel [out [ok [v' Hm]]]]. unfold Many in Hm.
  rewrite Many_loop_String_empty in Hm. discriminate.
Qed.

(** [Many] over letters, and at the end of the input. *)
Lemma Many_never_fails_witness :
  Many 3 (Satisfy is_letter) (vessel_of "ab1")
  = Done (VSlice [VInt 97; VInt 98], true, at_offset (vessel_of "ab1") 2) /\
  Many 1 (Satisfy is_letter) (vessel_of "")
  = Done (VSlice [], true, vessel_of "").
Proof.
  split.
  - apply (proj2 (Many_never_fails (Satisfy is_letter) (vessel_of "ab1"))
             [VInt 97; VInt 98] (at_offset (vessel_of "ab1") 2)).
    + eapply runs_more; [reflexivity|].
      eapply runs_more; [reflexivity|].
      eapply runs_fail. reflexivity.
    + simpl. lia.
  - apply (proj2 (Many_never_fails (Satisfy is_letter) (vessel_of ""))
             [] (vessel_of "")).
    + eapply runs_fail. reflexivity.
    + simpl. lia.
Defined.

(** C7, the claim as stated fails: with [String ""] for both parsers,
    [SepBy] never returns. *)
Lemma SepBy_no_result_counterexample :
  ~ (exists fuel out ok v',
       SepBy fuel (String "") (String "") (vessel_of "abc")
       = Done (out, ok, v')).
Proof.
  intros [fuel [out [ok [v' Hm]]]]. unfold SepBy in Hm.
  rewrite SepBy_loop_String_empty in Hm. discriminate.
Qed.

(** [SepBy] on "a,a,a,": three matches, success, the trailing delimiter
    consumed. *)
Lemma SepBy_never_fails_witness :
  SepBy 4 (String ",") (String "a") (vessel_of "a,a,a,")
  = Done (VVector [VString "a"; VString "a"; VString "a"], true,
          at_offset (vessel_of "a,a,a,") 6).
Proof.
  apply (proj2 (SepBy_never_fails (String ",") (String "a")
                  (vessel_of "a,a,a,"))
           [VString "a"; VString "a"; VString "a"]
           (at_offset (vessel_of "a,a,a,") 6)).
  - eapply sep_runs_more; [reflexivity | reflexivity |].
    eapply sep_runs_more; [reflexivity | reflexivity |].
    eapply sep_runs_more; [reflexivity | reflexivity |].
    eapply sep_runs_fail. reflexivity.
  - simpl. lia.
Defined.

(** C8, the claim as stated fails: with the literal "a" for [IdentStart],
    a parser whose Output is a string and no element, [IdentStart] succeeds
    on "ab" and [Identifier] does not: the assertion [n.(int)] panics. *)
Lemma Identifier_panics_counterexample :
  let v := mkStringVessel VNil "ab" (mkPosition "" 1 1 0)
             (example_spec (Literal "a") (Class is_ident_letter)) in
  run_stored (IdentStart (GetSpec v)) v
  = Done (VString "a", true, at_offset v 1) /\
  Identifier run_stored 3 v = Panic /\
  ~ (exists fuel out v', Identifier run_stored fuel v = Done (out, true, v')).
Proof.
  cbv zeta. split; [reflexivity|]. split; [reflexivity|].
  intros [fuel [out [v' H]]].
  destruct fuel as [|[|fuel]]; vm_compute in H; discriminate.
Qed.

(** With the literal "" for [IdentLetter], a parser that never fails,
    [Identifier] does not return once [IdentStart] has matched. *)
Lemma Identifier_no_result_example :
  forall fuel,
    Identifier run_stored fuel
      (mkStringVessel VNil "ab" (mkPosition "" 1 1 0)
         (example_spec (Class is_letter) (Literal "")))
    = OutOfFuel.
Proof.
  intros fuel. unfold Identifier.
  cbn [GetSpec spec example_spec IdentStart IdentLetter run_stored].
  match goal with
  | |- context [Satisfy is_letter ?v] =>
    change (Satisfy is_letter v)
      with (Done (VInt 97, true, at_offset v 1))
  end.
  cbn [bind negb]. unfold Many. rewrite Many_loop_String_empty. reflexivity.
Qed.

(** [Identifier] on "7abc", where [IdentStart] rejects digits, on
    "foo1 bar", and on "ab" with the literal "a" for [IdentStart]. *)
Lemma Identifier_spec_witness :
  Identifier run_stored 5 (vessel_of "7abc")
  = Done (VNil, false, vessel_of "7abc") /\
  Identifier run_stored 5 (vessel_of "foo1 bar")
  = Done (VString "foo1", true, at_offset (vessel_of "foo1 bar") 4) /\
  Identifier run_stored 5
    (mkStringVessel VNil "ab" (mkPosition "" 1 1 0)
       (example_spec (Literal "a") (Class is_ident_letter)))
  = Panic.
Proof.
  split; [|split].
  - apply (proj1 (Identifier_spec run_stored (vessel_of "7abc")) 5%nat VNil).
    reflexivity.
  - apply (proj1 (proj2 (proj2 (Identifier_spec run_stored
                                  (vessel_of "foo1 bar"))))
             5%nat 102 (at_offset (vessel_of "foo1 bar") 1)
             [VInt 111; VInt 111; VInt 49] [111; 111; 49]).
    + reflexivity.
    + eapply runs_more; [reflexivity|].
      eapply runs_more; [reflexivity|].
      eapply runs_more; [reflexivity|].
      eapply runs_fail. reflexivity.
    + reflexivity.
    + simpl. lia.
  - eapply (proj1 (proj2 (proj2 (proj2 (proj2
              (Identifier_spec run_stored
                 (mkStringVessel VNil "ab" (mkPosition "" 1 1 0)
                    (example_spec (Literal "a")
                                  (Class is_ident_letter))))))))
             5%nat (VString "a")).
    + reflexivity.
    + eapply runs_more; [reflexivity|].
      eapply runs_fail. reflexivity.
    + left. intros c Hc. discriminate Hc.
    + simpl. lia.
Defined.

(** [Lexeme] over a parser that fails in front of two blanks, and over one
    that matches in front of two blanks. *)
Lemma Lexeme_skips_after_witness :
  Lexeme 5 (String "x") (vessel_of "  ab")
  = Done (VNil, false, at_offset (vessel_of "  ab") 2) /\
  Lexeme 5 (String "ab") (vessel_of "ab  c")
  = Done (VString "ab", true, at_offset (vessel_of "ab  c") 4).
Proof.
  split.
  - apply (proj1 (Lexeme_skips_after (String "x") (vessel_of "  ab")
                    VNil false (vessel_of "  ab")
                    eq_refl ltac:(small_input)) 5%nat).
    vm_compute. lia.
  - apply (proj1 (Lexeme_skips_after (String "ab") (vessel_of "ab  c")
                    (VString "ab") true (at_offset (vessel_of "ab  c") 2)
                    eq_refl ltac:(small_input)) 5%nat).
    vm_compute. lia.
Defined.

(** A parser for a bracketed identifier keeps input and [Spec]. *)
Lemma library_keeps_input_and_spec_witness :
  keeps_input_and_spec (Parens 5 (Many 5 (Identifier run_stored 5))).
Proof.
  apply (library_keeps_input_and_spec run_stored).
  apply lib_Parens. apply lib_Many. apply lib_Identifier.
  intros [check | str]; [apply Satisfy_keeps | apply String_keeps].
Defined.

(** C3, on the code.  [String] pops [len(str)], the number of bytes: on
    the input made of U+00E9 and "a", the one-character literal U+00E9
    matches and moves the offset by 2, past the "a" that was still to
    come, where [Satisfy] moves it by 1 for the same character. *)
Theorem String_pops_bytes :
  runes e_acute = [233] /\
  remaining (vessel_of (e_acute ++ "a")) = [233; 97] /\
  String e_acute (vessel_of (e_acute ++ "a"))
  = Done (VString e_acute, true, at_offset (vessel_of (e_acute ++ "a")) 2) /\
  remaining (at_offset (vessel_of (e_acute ++ "a")) 2) = [] /\
  GetInput (at_offset (vessel_of (e_acute ++ "a")) 2) = VString "" /\
  Next (at_offset (vessel_of (e_acute ++ "a")) 2) = (0, false) /\
  Satisfy (fun _ => true) (vessel_of (e_acute ++ "a"))
  = Done (VInt 233, true, at_offset (vessel_of (e_acute ++ "a")) 1).
Proof. repeat split; reflexivity. Qed.

(** C4, on the code.  [Get n] gathers the elements at the offsets
    [Offset .. Offset + n], one more than [n], and compares the byte length
    with an element count: [Get 1] on "abc" returns "ab", [Get 0] returns
    "a", and [Get 3] succeeds on an input of two elements. *)
Theorem Get_one_too_many :
  Get (vessel_of "abc") 1 = (VString "ab", true) /\
  Get (vessel_of "abc") 0 = (VString "a", true) /\
  remaining (vessel_of (e_acute ++ e_acute)) = [233; 233] /\
  Get (vessel_of (e_acute ++ e_acute)) 3 = (VString (e_acute ++ e_acute), true).
Proof. repeat split; reflexivity. Qed.

(** ** Further properties of the code *)

(** *** Offsets under [Pop] and [Push] *)

Lemma int_wrap_is_int (z : Z) : is_int (int_wrap z).
Proof.
  unfold is_int, int_wrap, min_int, max_int, int_bits.
  change (2 ^ (64 - 1)) with 9223372036854775808.
  change (2 ^ 64) with 18446744073709551616.
  pose proof (Z.mod_pos_bound (z + 9223372036854775808)
                18446744073709551616 eq_refl).
  lia.
Qed.

Lemma int_wrap_shift (z k : Z) :
  int_wrap (z + k * 2 ^ int_bits) = int_wrap z.
Proof.
  unfold int_wrap.
  replace (z + k * 2 ^ int_bits + 2 ^ (int_bits - 1))
    with (z + 2 ^ (int_bits - 1) + k * 2 ^ int_bits) by ring.
  rewrite Z.mod_add by (vm_compute; discriminate). reflexivity.
Qed.

Lemma int_wrap_multiple (z : Z) :
  exists k, int_wrap z = z + k * 2 ^ int_bits.
Proof.
  unfold int_wrap.
  exists (- ((z + 2 ^ (int_bits - 1)) / 2 ^ int_bits)).
  pose proof (Z.div_mod (z + 2 ^ (int_bits - 1)) (2 ^ int_bits)
                ltac:(vm_compute; discriminate)).
  lia.
Qed.

Lemma int_sub_add (o i : Z) : is_int o -> int_sub (int_add o i) i = o.
Proof.
  intros Ho. unfold int_sub, int_add.
  destruct (int_wrap_multiple (o + i)) as [k Hk]. rewrite Hk.
  replace (o + i + k * 2 ^ int_bits - i) with (o + k * 2 ^ int_bits) by ring.
  rewrite int_wrap_shift. apply int_wrap_small. exact Ho.
Qed.

Lemma int_add_sub (o i : Z) : is_int o -> int_add (int_sub o i) i = o.
Proof.
  intros Ho. unfold int_sub, int_add.
  destruct (int_wrap_multiple (o - i)) as [k Hk]. rewrite Hk.
  replace (o - i + k * 2 ^ int_bits + i) with (o + k * 2 ^ int_bits) by ring.
  rewrite int_wrap_shift. apply int_wrap_small. exact Ho.
Qed.

Section MoreClaims.

Context {P : Type}.
Implicit Types (v : StringVessel P) (q : Parser P).

(** X1.  [Push i] undoes [Pop i] and [Pop i] undoes [Push i], for every
    [i], also when the sum or the difference wraps around: the vessel is
    back as it was. *)
Theorem Push_Pop_round_trip v (i : Z) :
  is_int (Offset (position v)) ->
  Push (Pop v i) i = v /\ Pop (Push v i) i = v.
Proof.
  intros Ho. unfold Push, Pop, SetPosition, set_Offset.
  cbn [position Offset Name Line Column state input spec].
  rewrite int_sub_add, int_add_sub by exact Ho.
  destruct v as [st s [nm l c o] sp]. split; reflexivity.
Qed.

(** X2.  [Try (Try q)] is [Try q]: wrapping twice reverts no more and no
    less than wrapping once, whatever [q] does. *)
Theorem Try_idempotent q v : Try (Try q) v = Try q v.
Proof.
  unfold Try. destruct (q v) as [[[out ok] v1]| |]; cbn [bind];
    try reflexivity.
  destruct ok; reflexivity.
Qed.

(** *** Alternatives and sequences *)

Lemma Any_skips_failures (ps : list (Parser P)) (rest : list (Parser P)) v :
  (forall q, In q ps -> exists o, q v = Done (o, false, v)) ->
  Any (ps ++ rest) v = Any rest v.
Proof.
  induction ps as [|p ps IH]; intros Hps; [reflexivity|].
  cbn [app Any]. destruct (Hps p (or_introl eq_refl)) as [o Hp].
  rewrite Hp. cbn [bind]. apply IH.
  intros q Hq. apply Hps. right. exact Hq.
Qed.

Lemma Any_result (ps : list (Parser P)) :
  forall v out ok v',
    Any ps v = Done (out, ok, v') ->
    (ok = true -> exists p v0, In p ps /\ p v0 = Done (out, true, v')) /\
    (ok = false -> out = VNil).
Proof.
  induction ps as [|p ps IH]; intros v out ok v' H; cbn [Any] in H.
  - inversion H; subst. split; [discriminate | reflexivity].
  - destruct (p v) as [[[o b] v1]| |] eqn:E; cbn [bind] in H;
      try discriminate.
    destruct b.
    + inversion H; subst. split; [|discriminate].
      intros _. exists p, v. split; [left; reflexivity | exact E].
    + apply IH in H. destruct H as [Hs Hf]. split; [|exact Hf].
      intros Hok. destruct (Hs Hok) as [p' [v0 [Hin Hp']]].
      exists p', v0. split; [right; exact Hin | exact Hp'].
Qed.

(** X3.  [Any] returns the result of the first alternative that matches,
    when the alternatives before it failed without touching the vessel; a
    success of [Any] is the success of one of its alternatives, and a
    failure of [Any] has the Output nil. *)
Theorem Any_first_success (ps ps' : list (Parser P)) (p : Parser P) v :
  ((forall q, In q ps -> exists o, q v = Done (o, false, v)) ->
   forall out v1,
     p v = Done (out, true, v1) ->
     Any (ps ++ p :: ps') v = Done (out, true, v1)) /\
  (forall out v',
     Any (ps ++ p :: ps') v = Done (out, true, v') ->
     exists p0 v0, In p0 (ps ++ p :: ps') /\ p0 v0 = Done (out, true, v')) /\
  (forall out v',
     Any (ps ++ p :: ps') v = Done (out, false, v') -> out = VNil).
Proof.
  split; [|split].
  - intros Hps out v1 Hp.
    rewrite (Any_skips_failures ps (p :: ps') v Hps).
    cbn [Any]. rewrite Hp. reflexivity.
  - intros out v' H.
    exact (proj1 (Any_result _ v out true v' H) eq_refl).
  - intros out v' H.
    exact (proj2 (Any_result _ v out false v' H) eq_refl).
Qed.

(** X4.  When every alternative is wrapped in [Try] and [Any] reports no
    match, State and Position are those from before the call: nothing an
    alternative consumed before it failed is left behind. *)
Theorem Any_of_Try_reverts (ps : list (Parser P)) :
  forall v out v',
    Any (map Try ps) v = Done (out, false, v') ->
    GetState v' = GetState v /\ GetPosition v' = GetPosition v.
Proof.
  induction ps as [|p ps IH]; intros v out v' H; cbn [map Any] in H.
  - inversion H; subst. split; reflexivity.
  - destruct (Try p v) as [[[o b] v1]| |] eqn:E; cbn [bind] in H;
      try discriminate.
    destruct b; [discriminate|].
    unfold Try in E.
    destruct (p v) as [[[o' b'] v1']| |]; cbn [bind] in E; try discriminate.
    destruct b'; cbn [negb] in E; inversion E; subst.
    apply IH in H. exact H.
Qed.

Lemma Collect_loop_seq (ps : list (Parser P)) :
  forall acc v out ok v',
    Collect_loop ps acc v = Done (out, ok, v') ->
    (ok = true ->
     exists outs, out = VVector (acc ++ outs) /\ seq_runs ps v outs v' /\
                  List.length outs = List.length ps) /\
    (ok = false -> out = VNil /\ ps <> []).
Proof.
  induction ps as [|p ps IH]; intros acc v out ok v' H;
    cbn [Collect_loop] in H.
  - inversion H; subst. split; [|discriminate].
    intros _. exists []. rewrite app_nil_r.
    split; [reflexivity|]. split; [constructor | reflexivity].
  - destruct (p v) as [[[o b] v1]| |] eqn:E; cbn [bind] in H;
      try discriminate.
    destruct b; cbn [negb] in H.
    + apply IH in H. destruct H as [Hs Hf]. split.
      * intros Hok. destruct (Hs Hok) as [outs [Hout [Hruns Hlen]]].
        exists (o :: outs). rewrite Hout, <- app_assoc.
        split; [reflexivity|].
        split; [econstructor; eauto | cbn [List.length]; lia].
      * intros Hok. split; [exact (proj1 (Hf Hok)) | discriminate].
    + inversion H; subst. split; [discriminate|].
      intros _. split; [reflexivity | discriminate].
Qed.

Lemma seq_runs_Collect_loop (ps : list (Parser P)) v outs v' :
  seq_runs ps v outs v' ->
  forall acc, Collect_loop ps acc v = Done (VVector (acc ++ outs), true, v').
Proof.
  induction 1 as [v | p ps v out v1 outs v' Hp Hruns IH]; intros acc;
    cbn [Collect_loop].
  - rewrite app_nil_r. reflexivity.
  - rewrite Hp. cbn [bind negb]. rewrite IH, <- app_assoc. reflexivity.
Qed.

(** X5.  [Collect] succeeds exactly when its parsers succeed one after the
    other, and then returns one output per parser, in order; when one of
    them fails, the Output is nil and the outputs gathered so far are
    gone. *)
Theorem Collect_gathers_all (ps : list (Parser P)) v :
  (forall out ok v',
     Collect ps v = Done (out, ok, v') ->
     (ok = true ->
      exists outs, out = VVector outs /\ seq_runs ps v outs v' /\
                   List.length outs = List.length ps) /\
     (ok = false -> out = VNil /\ ps <> [])) /\
  (forall outs v',
     seq_runs ps v outs v' -> Collect ps v = Done (VVector outs, true, v')).
Proof.
  split.
  - intros out ok v' H. unfold Collect in H.
    apply Collect_loop_seq in H. exact H.
  - intros outs v' Hruns. unfold Collect.
    rewrite (seq_runs_Collect_loop ps v outs v' Hruns []). reflexivity.
Qed.

Lemma last_cons_default {A : Type} (xs : list A) :
  forall x d, last (x :: xs) d = last xs x.
Proof.
  induction xs as [|y xs IH]; intros x d; [reflexivity|].
  change (last (x :: y :: xs) d) with (last (y :: xs) d).
  rewrite (IH y d), (IH y x). reflexivity.
Qed.

Lemma All_loop_Collect_loop (ps : list (Parser P)) :
  forall acc m v o1 ok v1,
    Collect_loop ps acc v = Done (o1, ok, v1) ->
    (ok = true ->
     exists outs, o1 = VVector (acc ++ outs) /\
                  All_loop ps m true v = Done (last outs m, true, v1)) /\
    (ok = false ->
     exists o2, forall b, All_loop ps m b v = Done (o2, false, v1)).
Proof.
  induction ps as [|p ps IH]; intros acc m v o1 ok v1 H;
    cbn [Collect_loop] in H.
  - inversion H; subst. split; [|discriminate].
    intros _. exists []. rewrite app_nil_r. split; reflexivity.
  - destruct (p v) as [[[o b] w]| |] eqn:E; cbn [bind] in H;
      try discriminate.
    destruct b; cbn [negb] in H.
    + apply (IH _ o) in H. destruct H as [Hs Hf]. split.
      * intros Hok. destruct (Hs Hok) as [outs [Hout Hall]].
        exists (o :: outs). rewrite Hout, <- app_assoc.
        split; [reflexivity|].
        cbn [All_loop]. rewrite E. cbn [bind negb]. rewrite Hall.
        rewrite last_cons_default. reflexivity.
      * intros Hok. destruct (Hf Hok) as [o2 Hall]. exists o2. intros b.
        cbn [All_loop]. rewrite E. cbn [bind negb]. apply Hall.
    + inversion H; subst. split; [discriminate|].
      intros _. exists o. intros b. cbn [All_loop]. rewrite E. reflexivity.
Qed.

(** X6.  Over the same parsers, at least one, [All] and [Collect] stop at
    the same place: they report the same flag and leave the same vessel,
    and on success the Output of [All] is the last of the outputs [Collect]
    gathers.  With no parser at all they differ: [Collect] succeeds with
    the empty vector, [All] reports no match. *)
Theorem All_and_Collect_agree (ps : list (Parser P)) v :
  (ps <> [] ->
   forall o1 ok v1,
     Collect ps v = Done (o1, ok, v1) ->
     exists o2, All ps v = Done (o2, ok, v1) /\
       (ok = true ->
        exists outs, o1 = VVector outs /\ o2 = last outs VNil)) /\
  Collect [] v = Done (VVector [], true, v) /\
  All [] v = Done (VNil, false, v).
Proof.
  split; [|split; reflexivity].
  intros Hne o1 ok v1 H.
  unfold Collect in H. unfold All.
  destruct (All_loop_Collect_loop ps [] VNil v o1 ok v1 H) as [Hs Hf].
  destruct ok.
  - destruct (Hs eq_refl) as [outs [Hout Hall]].
    exists (last outs VNil). split.
    + destruct ps as [|p ps]; [contradiction|].
      cbn [All_loop] in *. exact Hall.
    + intros _. exists outs. split; [exact Hout | reflexivity].
  - destruct (Hf eq_refl) as [o2 Hall]. exists o2.
    split; [apply Hall | discriminate].
Qed.

(** *** The view of the input *)

Lemma slice_from_add (o w : nat) :
  forall s, slice_from w (slice_from o s) = slice_from (o + w) s.
Proof.
  induction o as [|o IH]; intros s; cbn [slice_from Nat.add].
  - reflexivity.
  - destruct s as [|a t]; [destruct w; reflexivity | apply IH].
Qed.

Lemma slice_from_all (s : string) : slice_from (String.length s) s = "".
Proof. induction s as [|a t IH]; [reflexivity | exact IH]. Qed.

Lemma range_from_fuel (n : nat) :
  forall m o s,
    (String.length s <= n)%nat -> (String.length s <= m)%nat ->
    range_from n o s = range_from m o s.
Proof.
  induction n as [|n IH]; intros m o s Hn Hm.
  - destruct s; [destruct m; reflexivity | cbn [String.length] in Hn; lia].
  - destruct s as [|a t]; [destruct m; reflexivity|].
    destruct m as [|m]; [cbn [String.length] in Hm; lia|].
    cbn [range_from].
    pose proof (decode_rune_width a t) as Hw.
    destruct (decode_rune (String.String a t)) as [r w]. cbn [snd] in Hw.
    f_equal. apply IH; rewrite slice_from_length;
      cbn [String.length] in *; lia.
Qed.

Lemma range_from_runes (n : nat) :
  forall o o' s,
    map snd (range_from n o s) = map snd (range_from n o' s).
Proof.
  induction n as [|n IH]; intros o o' s; [reflexivity|].
  cbn [range_from]. destruct s as [|a t]; [reflexivity|].
  destruct (decode_rune (String.String a t)) as [r w].
  cbn [map snd]. f_equal. apply IH.
Qed.

Lemma runes_cons (a : ascii) (t : string) :
  runes (String.String a t) =
  fst (decode_rune (String.String a t))
  :: runes (slice_from (snd (decode_rune (String.String a t)))
                       (String.String a t)).
Proof.
  unfold runes, range. cbn [String.length range_from].
  pose proof (decode_rune_width a t) as Hw.
  destruct (decode_rune (String.String a t)) as [r w]. cbn [fst snd] in *.
  cbn [map snd]. f_equal.
  rewrite (range_from_runes _ (0 + w) 0).
  f_equal. apply range_from_fuel; rewrite slice_from_length;
    cbn [String.length]; lia.
Qed.

Lemma GetInput_loop_view v (n : nat) :
  forall (o : nat) (t : string) (i : Z),
    t = slice_from o (input v) ->
    (String.length t <= n)%nat ->
    0 <= i -> i + len t <= max_int ->
    (exists o', GetInput_loop v (range_from n o t) i
                = slice_from o' (input v)) /\
    (Offset (position v) < i ->
     GetInput_loop v (range_from n o t) i = "") /\
    (i <= Offset (position v) ->
     runes (GetInput_loop v (range_from n o t) i)
     = skipn (Z.to_nat (Offset (position v) - i)) (runes t) /\
     len (GetInput_loop v (range_from n o t) i)
     <= Z.max 0 (len t - (Offset (position v) - i))).
Proof.
  induction n as [|n IH]; intros o t i Ht Hn Hi Hb.
  - cbn [range_from GetInput_loop].
    destruct t; [|cbn [String.length] in Hn; lia].
    split; [exists (String.length (input v)); symmetry; apply slice_from_all|].
    split; [reflexivity|]. intros _. split.
    + rewrite skipn_nil. reflexivity.
    + unfold len. cbn [String.length]. lia.
  - destruct t as [|a t0].
    + cbn [range_from GetInput_loop].
      split; [exists (String.length (input v)); symmetry;
              apply slice_from_all|].
      split; [reflexivity|]. intros _. split.
      * rewrite skipn_nil. reflexivity.
      * unfold len. cbn [String.length]. lia.
    + cbn [range_from].
      pose proof (runes_cons a t0) as Hrc.
      pose proof (decode_rune_width a t0) as Hw.
      destruct (decode_rune (String.String a t0)) as [r w] eqn:Ed.
      cbn [fst snd] in *. cbn [GetInput_loop].
      unfold len in *. cbn [String.length] in Hn, Hb.
      destruct (Z.eqb_spec i (Offset (position v))) as [Heq|Hne].
      * rewrite Nat2Z.id, <- Ht.
        split; [exists o; exact Ht|].
        split; [lia|]. intros _. rewrite <- Heq, Z.sub_diag.
        split; [reflexivity|]. cbn [String.length]. lia.
      * rewrite int_add_small
          by (unfold is_int; pose proof min_int_neg; lia).
        assert (Ht' : slice_from w (String.String a t0)
                      = slice_from (o + w) (input v))
          by (rewrite Ht; apply slice_from_add).
        specialize (IH (o + w)%nat _ (i + 1) Ht').
        rewrite slice_from_length in IH. cbn [String.length] in IH.
        destruct IH as [Hsuf [Hlt Hge]]; try lia.
        split; [exact Hsuf|].
        split; [intros; apply Hlt; lia|].
        intros Hle. destruct Hge as [Hr Hl]; [lia|].
        split.
        -- rewrite Hr, Hrc.
           replace (Z.to_nat (Offset (position v) - i))
             with (S (Z.to_nat (Offset (position v) - (i + 1)))) by lia.
           reflexivity.
        -- cbn [String.length]. lia.
Qed.

Lemma runes_nil (s : string) : runes s = [] -> s = "".
Proof.
  destruct s as [|a t]; [reflexivity|].
  rewrite runes_cons. discriminate.
Qed.

(** X7.  [GetInput] returns a string, a suffix of the input, whose
    characters are exactly the elements from the offset on; for an offset
    that is negative or at or beyond the number of characters it returns
    the empty string. *)
Theorem GetInput_is_remaining v :
  len (input v) <= max_int ->
  exists (s : string) (o : nat),
    GetInput v = VString s /\
    s = slice_from o (input v) /\
    runes s = remaining v /\
    (Offset (position v) < 0 \/
     Z.of_nat (List.length (runes (input v))) <= Offset (position v) ->
     s = "").
Proof.
  intros Hlen. unfold GetInput, range.
  destruct (GetInput_loop_view v (String.length (input v)) O (input v) 0
              eq_refl (le_n _) (Z.le_refl 0) Hlen)
    as [[o Hsuf] [Hlt Hge]].
  exists (GetInput_loop v (range_from (String.length (input v)) 0 (input v)) 0),
    o.
  split; [reflexivity|]. split; [exact Hsuf|].
  assert (Hrem : runes (GetInput_loop v
                   (range_from (String.length (input v)) 0 (input v)) 0)
                 = remaining v).
  { unfold remaining.
    destruct (Z.ltb_spec (Offset (position v)) 0) as [Hneg|Hpos].
    - rewrite (Hlt Hneg). reflexivity.
    - destruct (Hge Hpos) as [Hr _]. rewrite Hr, Z.sub_0_r. reflexivity. }
  split; [exact Hrem|].
  intros Hout. apply runes_nil. rewrite Hrem. unfold remaining.
  destruct (Z.ltb_spec (Offset (position v)) 0) as [Hneg|Hpos];
    [reflexivity|].
  destruct Hout as [Hout|Hout]; [lia|].
  apply skipn_all2. lia.
Qed.

(** *** Repetition over [Satisfy] *)

Lemma leading_length (check : Z -> bool) (cs : list Z) :
  (List.length (leading check cs) <= List.length cs)%nat.
Proof.
  induction cs as [|c cs IH]; cbn [leading List.length]; [lia|].
  destruct (check c); cbn [List.length]; lia.
Qed.

Lemma Many_loop_Satisfy (check : Z -> bool) :
  forall fuel v acc,
    len (input v) <= max_int ->
    (List.length (leading check (remaining v)) < fuel)%nat ->
    Many_loop fuel (Satisfy check) acc v =
    Done (VSlice (acc ++ map VInt (leading check (remaining v))), true,
          at_offset v (Offset (position v)
                       + Z.of_nat (List.length
                                     (leading check (remaining v))))).
Proof.
  induction fuel as [|fuel IH]; intros v acc Hlen Hfuel; [lia|].
  cbn [Many_loop]. rewrite (Satisfy_cases check v Hlen).
  unfold next_element.
  destruct (remaining v) as [|c cs] eqn:E; cbn [hd_error leading] in *.
  - cbn. rewrite app_nil_r, Z.add_0_r, at_offset_same. reflexivity.
  - destruct (check c) eqn:Ec.
    + cbn [bind negb]. apply remaining_cons in E. destruct E as [Hb Hrem].
      cbn [List.length] in Hfuel.
      rewrite IH; [| exact Hlen | rewrite Hrem; lia].
      rewrite Hrem.
      cbn [map List.length at_offset position Offset set_Offset
           state input spec Name Line Column].
      rewrite <- app_assoc. cbn [app].
      replace (Offset (position v) + 1
               + Z.of_nat (List.length (leading check cs)))
        with (Offset (position v)
              + Z.of_nat (S (List.length (leading check cs)))) by lia.
      reflexivity.
    + cbn. rewrite app_nil_r, Z.add_0_r, at_offset_same. reflexivity.
Qed.

(** X8.  [Many (Satisfy check)] returns on every vessel: it succeeds with
    the longest run of elements from the offset that [check] accepts, as
    its outputs in order, and moves the offset by their number. *)
Theorem Many_Satisfy_returns (check : Z -> bool) v (fuel : nat) :
  len (input v) <= max_int ->
  (List.length (remaining v) < fuel)%nat ->
  Many fuel (Satisfy check) v =
  Done (VSlice (map VInt (leading check (remaining v))), true,
        at_offset v (Offset (position v)
                     + Z.of_nat (List.length
                                   (leading check (remaining v))))).
Proof.
  intros Hlen Hfuel. unfold Many.
  pose proof (leading_length check (remaining v)).
  rewrite Many_loop_Satisfy by (assumption || lia). reflexivity.
Qed.

Lemma ints_of_VInt (cs : list Z) : ints_of (map VInt cs) = Done cs.
Proof.
  induction cs as [|c cs IH]; [reflexivity|].
  cbn [map ints_of as_int bind]. rewrite IH. reflexivity.
Qed.

(** X9.  With character classes for [IdentStart] and [IdentLetter], each
    run through [Satisfy], [Identifier] returns on every vessel and never
    panics: it fails, leaving the vessel alone, at the end of the input or
    in front of an element [IdentStart] rejects, and otherwise succeeds with
    that element and the longest run of [IdentLetter] elements after it,
    encoded as a string, the offset moved past them. *)
Theorem Identifier_of_classes (call : P -> Parser P) v
  (start letter : Z -> bool) (fuel : nat) :
  call (IdentStart (GetSpec v)) = Satisfy start ->
  call (IdentLetter (GetSpec v)) = Satisfy letter ->
  len (input v) <= max_int ->
  (List.length (remaining v) <= fuel)%nat ->
  Identifier call fuel v =
  match remaining v with
  | c :: rest =>
    if start c
    then Done (VString (encode_runes (c :: leading letter rest)), true,
               at_offset v (Offset (position v) + 1
                            + Z.of_nat (List.length (leading letter rest))))
    else Done (VNil, false, v)
  | [] => Done (VNil, false, v)
  end.
Proof.
  intros Hstart Hletter Hlen Hfuel. unfold Identifier.
  rewrite Hstart, Hletter, (Satisfy_cases start v Hlen).
  unfold next_element.
  destruct (remaining v) as [|c rest] eqn:E; cbn [hd_error];
    [reflexivity|].
  destruct (start c); [|reflexivity].
  cbn [bind negb]. apply remaining_cons in E. destruct E as [Hb Hrem].
  cbn [List.length] in Hfuel. unfold Many.
  pose proof (leading_length letter rest).
  rewrite Many_loop_Satisfy; [| exact Hlen | rewrite Hrem; lia].
  rewrite Hrem. cbn [bind negb as_slice app]. rewrite ints_of_VInt.
  cbn [bind as_int encode_runes]. reflexivity.
Qed.

(** *** White space, twice *)

Lemma leading_spaces_skip (cs : list Z) :
  leading_spaces (skipn (List.length (leading_spaces cs)) cs) = [].
Proof.
  induction cs as [|c cs IH]; [reflexivity|].
  cbn [leading_spaces]. destruct (IsSpace c) eqn:Ec.
  - cbn [List.length skipn]. exact IH.
  - cbn [List.length skipn leading_spaces]. rewrite Ec. reflexivity.
Qed.

Lemma skip_spaces_twice v : skip_spaces (skip_spaces v) = skip_spaces v.
Proof.
  unfold skip_spaces at 1.
  rewrite remaining_skip_spaces, leading_spaces_skip.
  cbn [List.length]. rewrite Z.add_0_r. apply at_offset_same.
Qed.

(** X10.  [Lexeme (Lexeme q)] does what [Lexeme q] does: after the white
    space behind [q] is consumed, a second pass finds none and leaves the
    vessel where it is. *)
Theorem Lexeme_idempotent q v (out : Output) (ok : bool) v1 (fuel : nat) :
  q v = Done (out, ok, v1) ->
  len (input v1) <= max_int ->
  (List.length (leading_spaces (remaining v1)) < fuel)%nat ->
  Lexeme fuel (Lexeme fuel q) v = Lexeme fuel q v /\
  Lexeme fuel q v = Done (out, ok, skip_spaces v1).
Proof.
  intros Hq Hlen Hfuel.
  assert (H1 : Lexeme fuel q v = Done (out, ok, skip_spaces v1)).
  { unfold Lexeme. rewrite Hq. cbn [bind].
    rewrite (Whitespace_spec v1 fuel Hlen Hfuel). reflexivity. }
  split; [|exact H1].
  unfold Lexeme at 1. rewrite H1. cbn [bind].
  rewrite (Whitespace_spec (skip_spaces v1) fuel).
  - cbn [bind]. rewrite skip_spaces_twice. reflexivity.
  - exact Hlen.
  - rewrite remaining_skip_spaces, leading_spaces_skip. cbn [List.length].
    lia.
Qed.

End MoreClaims.

(** *** Invariants of the parsers built with the library *)

Section Invariant.

Context {P : Type}.
Implicit Types (v : StringVessel P) (q : Parser P).

Variable rel : StringVessel P -> StringVessel P -> Prop.

Hypothesis rel_refl : forall v, rel v v.
Hypothesis rel_trans : forall v v1 v2, rel v v1 -> rel v1 v2 -> rel v v2.
Hypothesis rel_Satisfy : forall check, respects rel (Satisfy check).
Hypothesis rel_String : forall str, respects rel (String str).
Hypothesis rel_revert :
  forall v v1,
    rel v v1 -> rel v (SetPosition (SetState v1 (GetState v)) (GetPosition v)).

Ltac step H :=
  match type of H with
  | context [bind (?p ?v) _] =>
    let E := fresh "E" in
    destruct (p v) as [[[? ?] ?]| |] eqn:E; cbn [bind] in H;
    try discriminate
  end.

Lemma Many_loop_respects q :
  respects rel q -> forall fuel acc, respects rel (Many_loop fuel q acc).
Proof.
  intros Hq. induction fuel as [|fuel IH]; intros acc v out ok v' H;
    cbn [Many_loop] in H; [discriminate|].
  step H. apply Hq in E.
  destruct b; cbn [negb] in H.
  - apply IH in H. eapply rel_trans; eauto.
  - inversion H; subst. exact E.
Qed.

Lemma Whitespace_respects (fuel : nat) : respects rel (Whitespace fuel).
Proof. exact (Many_loop_respects _ (rel_Satisfy IsSpace) fuel []). Qed.

Lemma Lexeme_respects (fuel : nat) q :
  respects rel q -> respects rel (Lexeme fuel q).
Proof.
  intros Hq v out ok v' H. unfold Lexeme in H.
  step H. apply Hq in E.
  step H. apply Whitespace_respects in E0.
  inversion H; subst. eapply rel_trans; eauto.
Qed.

Lemma SepBy_loop_respects (d q : Parser P) :
  respects rel d -> respects rel q ->
  forall fuel acc, respects rel (SepBy_loop fuel d q acc).
Proof.
  intros Hd Hq. induction fuel as [|fuel IH]; intros acc v out ok v' H;
    cbn [SepBy_loop] in H; [discriminate|].
  step H. apply Hq in E.
  destruct b; cbn [negb] in H.
  - step H. apply Hd in E0.
    destruct b; cbn [negb] in H.
    + apply IH in H. eapply rel_trans; [|exact H].
      eapply rel_trans; eauto.
    + inversion H; subst. eapply rel_trans; eauto.
  - inversion H; subst. exact E.
Qed.

Lemma Any_respects (qs : list (Parser P)) :
  (forall q, In q qs -> respects rel q) -> respects rel (Any qs).
Proof.
  induction qs as [|q qs IH]; intros Hqs v out ok v' H; cbn [Any] in H.
  - inversion H; subst. apply rel_refl.
  - step H. apply (Hqs q (or_introl eq_refl)) in E.
    destruct b.
    + inversion H; subst. exact E.
    + apply IH in H; [|intros q' Hin; apply Hqs; right; exact Hin].
      eapply rel_trans; eauto.
Qed.

Lemma All_loop_respects (qs : list (Parser P)) :
  (forall q, In q qs -> respects rel q) ->
  forall m b, respects rel (All_loop qs m b).
Proof.
  induction qs as [|q qs IH]; intros Hqs m b v out ok v' H;
    cbn [All_loop] in H.
  - inversion H; subst. apply rel_refl.
  - step H. apply (Hqs q (or_introl eq_refl)) in E.
    destruct b0; cbn [negb] in H.
    + apply IH in H; [|intros q' Hin; apply Hqs; right; exact Hin].
      eapply rel_trans; eauto.
    + inversion H; subst. exact E.
Qed.

Lemma Collect_loop_respects (qs : list (Parser P)) :
  (forall q, In q qs -> respects rel q) ->
  forall acc, respects rel (Collect_loop qs acc).
Proof.
  induction qs as [|q qs IH]; intros Hqs acc v out ok v' H;
    cbn [Collect_loop] in H.
  - inversion H; subst. apply rel_refl.
  - step H. apply (Hqs q (or_introl eq_refl)) in E.
    destruct b; cbn [negb] in H.
    + apply IH in H; [|intros q' Hin; apply Hqs; right; exact Hin].
      eapply rel_trans; eauto.
    + inversion H; subst. exact E.
Qed.

Lemma Try_respects q : respects rel q -> respects rel (Try q).
Proof.
  intros Hq v out ok v' H. unfold Try in H.
  step H. apply Hq in E.
  destruct b; cbn [negb] in H; inversion H; subst.
  - exact E.
  - apply rel_revert. exact E.
Qed.

Lemma Between_respects (b e q : Parser P) :
  respects rel b -> respects rel e -> respects rel q ->
  respects rel (Between b e q).
Proof.
  intros Hb He Hq v out ok v' H. unfold Between in H.
  step H.
  assert (Hk : rel v s).
  { apply (Try_respects (Collect [b; q; e])) in E; [exact E|].
    apply Collect_loop_respects. intros q' [<-|[<-|[<-|[]]]]; assumption. }
  destruct b0; cbn [negb] in H.
  - destruct (as_vector o) as [xs| |]; cbn [bind] in H; try discriminate.
    destruct (At xs 1) as [x| |]; cbn [bind] in H; try discriminate.
    inversion H; subst. exact Hk.
  - inversion H; subst. exact Hk.
Qed.

Lemma Identifier_respects (call : P -> Parser P) (fuel : nat) :
  (forall p, respects rel (call p)) -> respects rel (Identifier call fuel).
Proof.
  intros Hcall v out ok v' H. unfold Identifier in H.
  step H. apply Hcall in E.
  destruct b; cbn [negb] in H.
  - step H. apply (Many_loop_respects _ (Hcall _) fuel []) in E0.
    destruct b; cbn [negb] in H.
    + destruct (as_slice o0) as [xs| |]; cbn [bind] in H; try discriminate.
      destruct (ints_of xs) as [rest| |]; cbn [bind] in H; try discriminate.
      destruct (as_int o) as [c| |]; cbn [bind] in H; try discriminate.
      inversion H; subst. eapply rel_trans; eauto.
    + inversion H; subst. eapply rel_trans; eauto.
  - inversion H; subst. exact E.
Qed.

Lemma built_respects (call : P -> Parser P) q :
  built rel call q -> respects rel q.
Proof.
  induction 1 as [q Hq | check | str | fuel | fuel Hcall | fuel q _ IH
                 | fuel d q _ IHd _ IHq | qs _ IH | qs _ IH | qs _ IH
                 | b e q _ IHb _ IHe _ IHq | q _ IH | fuel q _ IH
                 | fuel str | fuel q _ IH | q _ IH].
  - exact Hq.
  - apply rel_Satisfy.
  - apply rel_String.
  - apply Whitespace_respects.
  - apply Identifier_respects. exact Hcall.
  - exact (Many_loop_respects q IH fuel []).
  - exact (SepBy_loop_respects d q IHd IHq fuel []).
  - apply Any_respects. exact IH.
  - exact (All_loop_respects qs IH VNil false).
  - exact (Collect_loop_respects qs IH []).
  - apply Between_respects; assumption.
  - apply Try_respects. exact IH.
  - apply Lexeme_respects. exact IH.
  - apply Lexeme_respects. apply rel_String.
  - apply Lexeme_respects.
    apply Between_respects; [| | exact IH];
      apply Lexeme_respects; apply rel_String.
  - intros v out ok v' H. unfold R in H. exact (IH v out ok v' H).
Qed.

End Invariant.

Section Invariants.

Context {P : Type}.
Implicit Types (v : StringVessel P) (q : Parser P).

Lemma same_line_column_Satisfy (check : Z -> bool) :
  respects (P := P) same_line_column (Satisfy check).
Proof.
  intros v out ok v' H. unfold Satisfy in H.
  destruct (Next v) as [target found].
  destruct (found && check target); inversion H; subst;
    repeat split; reflexivity.
Qed.

Lemma same_line_column_String (str : string) :
  respects (P := P) same_line_column (String str).
Proof.
  intros v out ok v' H. rewrite String_cases in H.
  destruct (HasPrefix _ str); inversion H; subst; repeat split; reflexivity.
Qed.

(** X11.  No parser built with the library ever changes the name, the
    line or the column of the position: whatever it consumes, only the
    offset moves. *)
Theorem built_keeps_line_and_column (call : P -> Parser P) q :
  built same_line_column call q -> respects same_line_column q.
Proof.
  apply built_respects.
  - intros v. repeat split; reflexivity.
  - intros v v1 v2 [H1 [H2 H3]] [H4 [H5 H6]]. repeat split; congruence.
  - exact same_line_column_Satisfy.
  - exact same_line_column_String.
  - intros v v1 _. repeat split; reflexivity.
Qed.

Lemma prefix_length (s1 : string) :
  forall s2, String.prefix s1 s2 = true -> len s1 <= len s2.
Proof.
  unfold len.
  induction s1 as [|a s1 IH]; intros s2 H; cbn [String.length]; [lia|].
  destruct s2 as [|b s2]; cbn [String.prefix] in H; [discriminate|].
  destruct (ascii_dec a b); [|discriminate].
  apply IH in H. cbn [String.length]. lia.
Qed.

Lemma moves_forward_Satisfy (check : Z -> bool) :
  respects (P := P) moves_forward (Satisfy check).
Proof.
  intros v out ok v' H. split.
  - exact (proj1 (Satisfy_keeps check v out ok v' H)).
  - intros Hlen Hint. rewrite (Satisfy_cases check v Hlen) in H.
    destruct (next_element v) as [c|] eqn:E.
    + apply next_element_bound in E.
      destruct (check c); inversion H; subst;
        cbn [at_offset position Offset set_Offset]; lia.
    + inversion H; subst. lia.
Qed.

Lemma moves_forward_String (str : string) :
  respects (P := P) moves_forward (String str).
Proof.
  intros v out ok v' H. split.
  - exact (proj1 (String_keeps str v out ok v' H)).
  - intros Hlen Hint. rewrite String_cases in H.
    destruct (HasPrefix _ str) eqn:Hp; inversion H; subst; [|lia].
    cbn [at_offset position Offset set_Offset].
    unfold HasPrefix in Hp. apply prefix_length in Hp.
    destruct (GetInput_loop_view v (String.length (input v)) O (input v) 0
                eq_refl (le_n _) (Z.le_refl 0) Hlen) as [_ [Hlt Hge]].
    fold (range (input v)) in Hlt, Hge.
    assert (Hstr : 0 <= len str) by (unfold len; lia).
    unfold is_int in Hint.
    destruct (Z_lt_le_dec (Offset (position v)) 0) as [Hneg|Hpos].
    + rewrite (Hlt Hneg) in Hp. change (len "") with 0 in Hp.
      rewrite int_add_small by (unfold is_int; lia). lia.
    + destruct (Hge Hpos) as [_ Hl].
      rewrite int_add_small by (unfold is_int; pose proof min_int_neg; lia).
      lia.
Qed.

(** X12.  No parser built with the library changes the input or moves the
    offset backwards, and none moves it beyond the byte length of the
    input: [Push] is never used, and [Pop] only for what was matched. *)
Theorem built_moves_forward (call : P -> Parser P) q :
  built moves_forward call q -> respects moves_forward q.
Proof.
  apply built_respects.
  - intros v. split; [reflexivity|]. intros _ _. lia.
  - intros v v1 v2 [Hi1 Hb1] [Hi2 Hb2]. split; [congruence|].
    intros Hlen Hint. specialize (Hb1 Hlen Hint).
    rewrite Hi1 in Hb2. unfold is_int in *.
    assert (Hint1 : min_int <= Offset (position v1) <= max_int) by lia.
    specialize (Hb2 Hlen Hint1). lia.
  - exact moves_forward_Satisfy.
  - exact moves_forward_String.
  - intros v v1 [Hi _]. split; [exact Hi|]. intros _ _.
    unfold SetPosition, SetState, GetPosition, GetState.
    cbn [position]. lia.
Qed.

End Invariants.

(** *** What [Get] returns *)

Lemma append_empty_r (s : string) : (s ++ "")%string = s.
Proof. induction s as [|a s IH]; cbn; [reflexivity | rewrite IH; reflexivity]. Qed.

Lemma append_append (s1 s2 s3 : string) :
  ((s1 ++ s2) ++ s3)%string = (s1 ++ (s2 ++ s3))%string.
Proof.
  induction s1 as [|a s1 IH]; cbn; [reflexivity | rewrite IH; reflexivity].
Qed.

Section GetFacts.

Context {P : Type}.
Implicit Types v : StringVessel P.

Lemma Get_loop_window v (i : Z) :
  0 <= Offset (position v) ->
  is_int (Offset (position v) + i) ->
  forall (rs : list (Z * Z)) (n : Z) (s : string),
    0 <= n -> n + Z.of_nat (List.length rs) <= max_int ->
    Get_loop v i rs n s =
    (s ++ encode_runes
            (firstn (Z.to_nat (Offset (position v) + i + 1
                               - Z.max n (Offset (position v))))
                    (skipn (Z.to_nat (Offset (position v) - n))
                           (map snd rs))))%string.
Proof.
  intros Hoff Hint.
  induction rs as [|[o c] rs IH]; intros n s Hn Hb; cbn [Get_loop map snd].
  - rewrite skipn_nil, firstn_nil. cbn [encode_runes].
    rewrite append_empty_r. reflexivity.
  - cbn [List.length] in Hb.
    rewrite (int_add_small _ i) by exact Hint.
    rewrite (int_add_small n 1)
      by (unfold is_int; pose proof min_int_neg; lia).
    destruct (Z.leb_spec (Offset (position v)) n) as [Hle|Hgt].
    + replace (Z.to_nat (Offset (position v) - n)) with O by lia.
      cbn [skipn].
      destruct (Z.ltb_spec (Offset (position v) + i) n) as [Hlt|Hge].
      * replace (Z.to_nat (Offset (position v) + i + 1
                           - Z.max n (Offset (position v)))) with O by lia.
        cbn [firstn encode_runes]. rewrite append_empty_r. reflexivity.
      * rewrite IH by lia.
        replace (Z.to_nat (Offset (position v) - (n + 1))) with O by lia.
        cbn [skipn].
        replace (Z.to_nat (Offset (position v) + i + 1
                           - Z.max n (Offset (position v))))
          with (S (Z.to_nat (Offset (position v) + i + 1
                             - Z.max (n + 1) (Offset (position v)))))
          by lia.
        cbn [firstn encode_runes]. rewrite append_append. reflexivity.
    + rewrite IH by lia.
      replace (Z.to_nat (Offset (position v) - n))
        with (S (Z.to_nat (Offset (position v) - (n + 1)))) by lia.
      cbn [skipn].
      replace (Z.max (n + 1) (Offset (position v)))
        with (Z.max n (Offset (position v))) by lia.
      reflexivity.
Qed.

(** X13.  [Get i] fails exactly when the byte length of the input is below
    [Offset + i]; otherwise it succeeds with the elements at the offsets
    [Offset] to [Offset + i], both included, encoded as a string: the next
    [i + 1] elements, or as many as are left. *)
Theorem Get_returns_window v (i : Z) :
  len (input v) <= max_int ->
  0 <= Offset (position v) ->
  is_int (Offset (position v) + i) ->
  Get v i =
  if len (input v) <? Offset (position v) + i
  then (VString "", false)
  else (VString (encode_runes (firstn (Z.to_nat (i + 1)) (remaining v))),
        true).
Proof.
  intros Hlen Hoff Hint. unfold Get.
  rewrite (int_add_small _ i) by exact Hint.
  destruct (len (input v) <? Offset (position v) + i); [reflexivity|].
  pose proof (runes_length (input v)) as Hr.
  unfold runes in Hr. rewrite length_map in Hr.
  rewrite (Get_loop_window v i Hoff Hint) by lia.
  unfold remaining, runes.
  destruct (Z.ltb_spec (Offset (position v)) 0); [lia|].
  rewrite Z.sub_0_r.
  replace (Offset (position v) + i + 1 - Z.max 0 (Offset (position v)))
    with (i + 1) by lia.
  reflexivity.
Qed.

End GetFacts.

(** *** [String] over literals of single-byte characters *)

Lemma land_le_r (x y : Z) : 0 <= x -> 0 <= y -> Z.land x y <= y.
Proof.
  intros Hx Hy. rewrite <- (Z2N.id x Hx), <- (Z2N.id y Hy) at 1.
  rewrite <- N2Z.inj_land.
  rewrite <- (Z2N.id y Hy) at 2. apply N2Z.inj_le. apply N.land_le_r.
Qed.

Lemma lor_lower (x y : Z) :
  0 <= x -> 0 <= y -> x <= Z.lor x y /\ y <= Z.lor x y.
Proof.
  intros Hx Hy. pose proof (Z.add_lor_land x y) as Hadd.
  pose proof (land_le_r x y Hx Hy) as H1.
  pose proof (land_le_r y x Hy Hx) as H2.
  rewrite Z.land_comm in H2. lia.
Qed.

Lemma byte_of_range (a : ascii) : 0 <= byte_of a < 256.
Proof. unfold byte_of. pose proof (nat_ascii_bounded a). lia. Qed.

Lemma byte_of_inj (a b : ascii) : byte_of a = byte_of b -> a = b.
Proof.
  unfold byte_of. intros H. apply Nat2Z.inj in H.
  rewrite <- (ascii_nat_embedding a), <- (ascii_nat_embedding b), H.
  reflexivity.
Qed.

Lemma decode_rune_single (a : ascii) (t : string) :
  byte_of a < 128 -> decode_rune (String.String a t) = (byte_of a, 1%nat).
Proof.
  intros Ha. unfold decode_rune.
  destruct (Z.ltb_spec (byte_of a) 128); [reflexivity | lia].
Qed.

Ltac lor_nonneg :=
  repeat (apply Z.lor_nonneg; split);
  try (apply Z.shiftl_nonneg); try (apply Z.land_nonneg; right; lia).

Ltac pose_lor_bounds :=
  repeat match goal with
         | |- context [Z.lor ?x ?y] =>
           lazymatch goal with
           | _ : x <= Z.lor x y /\ y <= Z.lor x y |- _ => fail
           | _ => let H := fresh "Hlor" in
                  assert (H : x <= Z.lor x y /\ y <= Z.lor x y)
                    by (apply lor_lower; lor_nonneg)
           end
         end.

Ltac bool_to_Z :=
  repeat match goal with
         | H : _ && _ = true |- _ => apply andb_prop in H; destruct H
         | H : (_ <=? _) = true |- _ => apply Z.leb_le in H
         | H : (_ =? _) = true |- _ => apply Z.eqb_eq in H
         | H : (_ =? _) = false |- _ => apply Z.eqb_neq in H
         end.

(** A first byte of 128 or more never decodes to a rune below 128. *)
Lemma decode_rune_high (a : ascii) (t : string) :
  128 <= byte_of a -> 128 <= fst (decode_rune (String.String a t)).
Proof.
  intros Ha. unfold decode_rune. cbv zeta.
  pose proof (byte_of_range a) as Hr.
  destruct (Z.ltb_spec (byte_of a) 128); [lia|].
  repeat match goal with
         | |- context [match ?x with
                       | EmptyString => _
                       | String.String _ _ => _
                       end] => destruct x
         | |- context [if ?c then _ else _] => destruct c eqn:?
         end; cbn [fst]; try (unfold RuneError; lia);
    unfold is_cont, low6 in *; bool_to_Z.
  all: pose_lor_bounds.
  all: change 31 with (Z.ones 5) in *; change 15 with (Z.ones 4) in *;
       change 7 with (Z.ones 3) in *; change 63 with (Z.ones 6) in *.
  all: rewrite ?Z.land_ones in * by lia.
  all: rewrite ?Z.shiftl_mul_pow2 in * by lia.
  all: try (Z.div_mod_to_equations; lia).
  all: repeat match goal with
              | H : context [if ?c then _ else _] |- _ => destruct c eqn:?
              end.
  all: bool_to_Z.
  all: Z.div_mod_to_equations; lia.
Qed.

Lemma runes_single (a : ascii) (t : string) :
  byte_of a < 128 -> runes (String.String a t) = byte_of a :: runes t.
Proof.
  intros Ha. rewrite runes_cons, (decode_rune_single a t Ha). reflexivity.
Qed.

Lemma prefix_begins_with (str : string) :
  ascii_only str = true ->
  forall view,
    String.prefix str view = begins_with (runes str) (runes view).
Proof.
  induction str as [|a str IH]; intros Hs view.
  - destruct view; reflexivity.
  - cbn [ascii_only] in Hs. apply andb_prop in Hs. destruct Hs as [Ha Hs].
    apply Z.ltb_lt in Ha. rewrite (runes_single a str Ha).
    destruct view as [|b view]; [reflexivity|].
    cbn [String.prefix]. rewrite runes_cons. cbn [begins_with].
    destruct (ascii_dec a b) as [Heq|Hne].
    + subst b. rewrite (decode_rune_single a view Ha).
      cbn [fst snd slice_from]. rewrite Z.eqb_refl. cbn [andb].
      apply IH. exact Hs.
    + assert (Hr : byte_of a <> fst (decode_rune (String.String b view))).
      { destruct (Z_lt_le_dec (byte_of b) 128) as [Hb|Hb].
        - rewrite (decode_rune_single b view Hb). cbn [fst].
          intros E. apply Hne. apply byte_of_inj. exact E.
        - pose proof (decode_rune_high b view Hb). lia. }
      apply Z.eqb_neq in Hr. rewrite Hr. reflexivity.
Qed.

Section StringFacts.

Context {P : Type}.
Implicit Types v : StringVessel P.

Lemma view_of_input v :
  len (input v) <= max_int ->
  runes (GetInput_loop v (range (input v)) 0) = remaining v /\
  (Offset (position v) < 0 -> GetInput_loop v (range (input v)) 0 = "") /\
  (0 <= Offset (position v) ->
   len (GetInput_loop v (range (input v)) 0)
   <= Z.max 0 (len (input v) - Offset (position v))).
Proof.
  intros Hlen. unfold range.
  destruct (GetInput_loop_view v (String.length (input v)) O (input v) 0
              eq_refl (le_n _) (Z.le_refl 0) Hlen) as [_ [Hlt Hge]].
  split; [|split].
  - unfold remaining.
    destruct (Z.ltb_spec (Offset (position v)) 0) as [Hneg|Hpos].
    + rewrite (Hlt Hneg). reflexivity.
    + destruct (Hge Hpos) as [Hr _]. rewrite Hr, Z.sub_0_r. reflexivity.
  - exact Hlt.
  - intros Hpos. destruct (Hge Hpos) as [_ Hl].
    rewrite Z.sub_0_r in Hl. exact Hl.
Qed.

(** X14.  For a literal of single-byte characters, [String] succeeds
    exactly when the elements from the offset on begin with the characters
    of the literal; it then returns the literal and moves the offset by the
    number of its characters, and otherwise leaves the vessel as it was. *)
Theorem String_of_single_bytes (str : string) v :
  ascii_only str = true ->
  len (input v) <= max_int ->
  is_int (Offset (position v)) ->
  String str v =
  if begins_with (runes str) (remaining v)
  then Done (VString str, true,
             at_offset v (Offset (position v)
                          + Z.of_nat (List.length (runes str))))
  else Done (VNil, false, v).
Proof.
  intros Hs Hlen Hint. rewrite String_cases. unfold HasPrefix.
  destruct (view_of_input v Hlen) as [Hrunes [Hneg Hpos]].
  destruct (String.prefix str (GetInput_loop v (range (input v)) 0))
    eqn:Hp.
  - pose proof (prefix_length _ _ Hp) as Hl.
    rewrite (prefix_begins_with str Hs), Hrunes in Hp. rewrite Hp.
    rewrite (runes_ascii_length str Hs).
    assert (Hstr : 0 <= len str) by (unfold len; lia).
    unfold is_int in Hint.
    destruct (Z_lt_le_dec (Offset (position v)) 0) as [Ho|Ho].
    + rewrite (Hneg Ho) in Hl. change (len "") with 0 in Hl.
      rewrite int_add_small by (unfold is_int; lia). reflexivity.
    + specialize (Hpos Ho).
      rewrite int_add_small by (unfold is_int; pose proof min_int_neg; lia).
      reflexivity.
  - rewrite (prefix_begins_with str Hs), Hrunes in Hp. rewrite Hp.
    reflexivity.
Qed.

End StringFacts.

(** *** Termination of [Many], exact reverts, and [Pop] on the elements *)

Section Progress.

Context {P : Type}.
Implicit Types (v w : StringVessel P) (q : Parser P).

Lemma runs_on_progress q v :
  (forall w, input w = input v ->
     exists out ok w', q w = Done (out, ok, w')) ->
  (forall w out w',
     input w = input v -> q w = Done (out, true, w') ->
     input w' = input w /\
     Offset (position w) < Offset (position w') <= len (input w)) ->
  forall (n : nat) w,
    input w = input v ->
    (Z.to_nat (len (input v) - Offset (position w)) <= n)%nat ->
    exists outs w', runs q w outs w' /\ (List.length outs <= n)%nat.
Proof.
  intros Htotal Hprog.
  induction n as [|n IH]; intros w Hin Hn;
    destruct (Htotal w Hin) as [out [ok [w1 Hq]]]; destruct ok.
  - destruct (Hprog w out w1 Hin Hq) as [_ Hoff]. rewrite Hin in Hoff. lia.
  - exists [], w1. split; [eapply runs_fail; eauto | cbn; lia].
  - destruct (Hprog w out w1 Hin Hq) as [Hin1 Hoff].
    rewrite Hin in Hin1, Hoff.
    destruct (IH w1 Hin1) as [outs [w' [Hruns Hlen]]]; [lia|].
    exists (out :: outs), w'. split.
    + eapply runs_more; eauto.
    + cbn [List.length]. lia.
  - exists [], w1. split; [eapply runs_fail; eauto | cbn; lia].
Qed.

(** X15.  [Many q] returns, with success, whenever [q] itself returns on
    every vessel over this input and each success of [q] keeps the input
    and moves the offset forward without passing the byte length of the
    input: the number of iterations is bounded by the bytes left. *)
Theorem Many_returns_on_progress q v :
  (forall w, input w = input v ->
     exists out ok w', q w = Done (out, ok, w')) ->
  (forall w out w',
     input w = input v -> q w = Done (out, true, w') ->
     input w' = input w /\
     Offset (position w) < Offset (position w') <= len (input w)) ->
  exists outs v',
    runs q v outs v' /\
    forall fuel,
      (Z.to_nat (len (input v) - Offset (position v)) < fuel)%nat ->
      Many fuel q v = Done (VSlice outs, true, v').
Proof.
  intros Htotal Hprog.
  destruct (runs_on_progress q v Htotal Hprog
              (Z.to_nat (len (input v) - Offset (position v))) v
              eq_refl (le_n _)) as [outs [v' [Hruns Hlen]]].
  exists outs, v'. split; [exact Hruns|].
  intros fuel Hfuel. unfold Many.
  rewrite (Many_loop_complete q v outs v' Hruns fuel []) by lia.
  reflexivity.
Qed.

Lemma Try_fail_vessel q v (out : Output) v' :
  Try q v = Done (out, false, v') ->
  exists v1, q v = Done (out, false, v1) /\ v' = reverted v v1.
Proof.
  unfold Try. intros H.
  destruct (q v) as [[[o ok] v1]| |]; cbn [bind] in H; try discriminate.
  destruct ok; cbn [negb] in H; inversion H; subst.
  exists v1. split; reflexivity.
Qed.

Lemma reverted_same v v1 :
  input v1 = input v -> spec v1 = spec v -> reverted v v1 = v.
Proof.
  intros Hi Hs. unfold reverted. rewrite Hi, Hs.
  destruct v; reflexivity.
Qed.

(** X16.  Around parsers that keep input and [Spec], a [Try] or a
    [Between] that reports no match hands back the very vessel it was
    given: every field is as before the call. *)
Theorem failed_Try_leaves_vessel q (b e : Parser P) v :
  (keeps_input_and_spec q ->
   forall out v', Try q v = Done (out, false, v') -> v' = v) /\
  (keeps_input_and_spec b -> keeps_input_and_spec e ->
   keeps_input_and_spec q ->
   forall out v', Between b e q v = Done (out, false, v') -> v' = v).
Proof.
  assert (HTry : forall p, keeps_input_and_spec p ->
                 forall out v', Try p v = Done (out, false, v') -> v' = v).
  { intros p Hp out v' H.
    destruct (Try_fail_vessel p v out v' H) as [v1 [Hq ->]].
    apply Hp in Hq. destruct Hq as [Hi Hs].
    apply reverted_same; assumption. }
  split; [exact (HTry q)|].
  intros Hb He Hq out v' H. unfold Between in H.
  destruct (Try (Collect [b; q; e]) v) as [[[o ok] v1]| |] eqn:E;
    cbn [bind] in H; try discriminate.
  destruct ok; cbn [negb] in H.
  - destruct (as_vector o) as [xs| |]; cbn [bind] in H; try discriminate.
    destruct (At xs 1) as [x| |]; cbn [bind] in H; discriminate.
  - inversion H; subst.
    apply (HTry (Collect [b; q; e])) with (out := o); [|exact E].
    apply Collect_loop_keeps. intros p [<-|[<-|[<-|[]]]]; assumption.
Qed.

(** X17.  [Pop n] moves the vessel past the next [n] elements: what
    remains afterwards is what remained before without its first [n]
    elements. *)
Theorem Pop_drops_elements v (n : Z) :
  0 <= Offset (position v) -> 0 <= n ->
  is_int (Offset (position v) + n) ->
  remaining (Pop v n) = skipn (Z.to_nat n) (remaining v).
Proof.
  intros Hoff Hn Hint. rewrite Pop_at_offset, int_add_small by exact Hint.
  unfold remaining. cbn [at_offset position Offset set_Offset input].
  destruct (Z.ltb_spec (Offset (position v)) 0); [lia|].
  destruct (Z.ltb_spec (Offset (position v) + n) 0); [lia|].
  rewrite skipn_skipn. f_equal. lia.
Qed.

End Progress.

(** *** The further properties at concrete vessels *)

Ltac int_range := unfold is_int; split; vm_compute; discriminate.

Lemma stored_same_line_column (p : stored) :
  respects same_line_column (run_stored p).
Proof.
  destruct p as [check | str];
    [apply same_line_column_Satisfy | apply same_line_column_String].
Qed.

Lemma stored_moves_forward (p : stored) :
  respects moves_forward (run_stored p).
Proof.
  destruct p as [check | str];
    [apply moves_forward_Satisfy | apply moves_forward_String].
Qed.

(** [Pop 5] at the largest offset wraps around, and [Push 5] is back. *)
Lemma Push_Pop_round_trip_witness :
  Push (Pop (at_offset (vessel_of "abc") max_int) 5) 5
  = at_offset (vessel_of "abc") max_int /\
  Pop (Push (at_offset (vessel_of "abc") max_int) 5) 5
  = at_offset (vessel_of "abc") max_int.
Proof.
  apply (Push_Pop_round_trip (at_offset (vessel_of "abc") max_int) 5).
  int_range.
Defined.

(** [Any] over "ab" and "ac" on "acd": the second alternative matches. *)
Lemma Any_first_success_witness :
  Any [String "ab"; String "ac"] (vessel_of "acd")
  = Done (VString "ac", true, at_offset (vessel_of "acd") 2).
Proof.
  apply (proj1 (Any_first_success [String "ab"] [] (String "ac")
                  (vessel_of "acd"))).
  - intros q [<-|[]]. exists VNil. reflexivity.
  - reflexivity.
Defined.

Lemma Any_of_Try_reverts_witness :
  GetState (reverted (vessel_of "abc")
              (SetState (Pop (vessel_of "abc") 2) (VInt 7)))
  = GetState (vessel_of "abc") /\
  GetPosition (reverted (vessel_of "abc")
                 (SetState (Pop (vessel_of "abc") 2) (VInt 7)))
  = GetPosition (vessel_of "abc").
Proof.
  apply (Any_of_Try_reverts [consume_and_fail] (vessel_of "abc") VNil).
  reflexivity.
Defined.

Lemma Collect_gathers_all_witness :
  Collect [String "a"; String "b"] (vessel_of "abc")
  = Done (VVector [VString "a"; VString "b"], true,
          at_offset (vessel_of "abc") 2).
Proof.
  apply (proj2 (Collect_gathers_all [String "a"; String "b"]
                  (vessel_of "abc"))).
  eapply seq_runs_cons; [reflexivity|].
  eapply seq_runs_cons; [reflexivity|].
  apply seq_runs_nil.
Defined.

Lemma All_and_Collect_agree_witness :
  exists o2,
    All [String "a"; String "b"] (vessel_of "abc")
    = Done (o2, true, at_offset (vessel_of "abc") 2) /\
    (true = true ->
     exists outs,
       VVector [VString "a"; VString "b"] = VVector outs /\
       o2 = last outs VNil).
Proof.
  apply (proj1 (All_and_Collect_agree [String "a"; String "b"]
                  (vessel_of "abc"))).
  - discriminate.
  - reflexivity.
Defined.

Lemma GetInput_is_remaining_witness :
  exists (s : string) (o : nat),
    GetInput (at_offset (vessel_of (e_acute ++ "a")) 1) = VString s /\
    s = slice_from o (e_acute ++ "a") /\
    runes s = remaining (at_offset (vessel_of (e_acute ++ "a")) 1) /\
    (1 < 0 \/
     Z.of_nat (List.length (runes (e_acute ++ "a"))) <= 1 -> s = "").
Proof.
  apply (GetInput_is_remaining (at_offset (vessel_of (e_acute ++ "a")) 1)).
  small_input.
Defined.

Lemma Many_Satisfy_returns_witness :
  Many 4 (Satisfy is_letter) (vessel_of "ab1")
  = Done (VSlice [VInt 97; VInt 98], true, at_offset (vessel_of "ab1") 2).
Proof.
  apply (Many_Satisfy_returns is_letter (vessel_of "ab1") 4).
  - small_input.
  - vm_compute. lia.
Defined.

Lemma Identifier_of_classes_witness :
  Identifier run_stored 8 (vessel_of "foo1 bar")
  = Done (VString "foo1", true, at_offset (vessel_of "foo1 bar") 4) /\
  Identifier run_stored 4 (vessel_of "7abc")
  = Done (VNil, false, vessel_of "7abc").
Proof.
  split.
  - apply (Identifier_of_classes run_stored (vessel_of "foo1 bar")
             is_letter is_ident_letter 8 eq_refl eq_refl).
    + small_input.
    + vm_compute. lia.
  - apply (Identifier_of_classes run_stored (vessel_of "7abc")
             is_letter is_ident_letter 4 eq_refl eq_refl).
    + small_input.
    + vm_compute. lia.
Defined.

Lemma Lexeme_idempotent_witness :
  Lexeme 5 (Lexeme 5 (String "ab")) (vessel_of "ab  c")
  = Lexeme 5 (String "ab") (vessel_of "ab  c") /\
  Lexeme 5 (String "ab") (vessel_of "ab  c")
  = Done (VString "ab", true, at_offset (vessel_of "ab  c") 4).
Proof.
  apply (Lexeme_idempotent (String "ab") (vessel_of "ab  c")
           (VString "ab") true (at_offset (vessel_of "ab  c") 2) 5 eq_refl).
  - small_input.
  - vm_compute. lia.
Defined.

Lemma built_keeps_line_and_column_witness :
  respects same_line_column (Parens 5 (Many 5 (Identifier run_stored 5))).
Proof.
  apply (built_keeps_line_and_column run_stored).
  apply built_Parens. apply built_Many. apply built_Identifier.
  exact stored_same_line_column.
Defined.

Lemma built_moves_forward_witness :
  respects moves_forward
    (SepBy 5 (Symbol 5 ",") (Try (Identifier run_stored 5))).
Proof.
  apply (built_moves_forward run_stored).
  apply built_SepBy; [apply built_Symbol|].
  apply built_Try. apply built_Identifier.
  exact stored_moves_forward.
Defined.

Lemma Get_returns_window_witness :
  Get (vessel_of "abc") 1 = (VString "ab", true) /\
  Get (vessel_of "abc") 4 = (VString "", false).
Proof.
  split.
  - apply (Get_returns_window (vessel_of "abc") 1);
      [small_input | vm_compute; discriminate | int_range].
  - apply (Get_returns_window (vessel_of "abc") 4);
      [small_input | vm_compute; discriminate | int_range].
Defined.

Lemma String_of_single_bytes_witness :
  String "ab" (vessel_of "abc")
  = Done (VString "ab", true, at_offset (vessel_of "abc") 2) /\
  String "ac" (vessel_of "abc") = Done (VNil, false, vessel_of "abc").
Proof.
  split.
  - apply (String_of_single_bytes "ab" (vessel_of "abc") eq_refl);
      [small_input | int_range].
  - apply (String_of_single_bytes "ac" (vessel_of "abc") eq_refl);
      [small_input | int_range].
Defined.

Lemma Many_returns_on_progress_witness :
  exists outs v',
    runs (Satisfy is_letter) (vessel_of "ab1") outs v' /\
    forall fuel,
      (Z.to_nat (len "ab1" - 0) < fuel)%nat ->
      Many fuel (Satisfy is_letter) (vessel_of "ab1")
      = Done (VSlice outs, true, v').
Proof.
  apply (Many_returns_on_progress (Satisfy is_letter) (vessel_of "ab1")).
  - intros w _. unfold Satisfy.
    destruct (Next w) as [target found].
    destruct (found && is_letter target); do 3 eexists; reflexivity.
  - intros w out w' Hin Hq.
    assert (Hlen : len (input w) <= max_int)
      by (rewrite Hin; vm_compute; discriminate).
    split; [exact (proj1 (Satisfy_keeps is_letter w out true w' Hq))|].
    rewrite (Satisfy_cases is_letter w Hlen) in Hq.
    destruct (next_element w) as [c|] eqn:E; [|discriminate].
    apply next_element_bound in E.
    destruct (is_letter c); inversion Hq; subst.
    cbn [at_offset position Offset set_Offset]. lia.
Defined.

Lemma failed_Try_leaves_vessel_witness :
  reverted (vessel_of "abc") (at_offset (vessel_of "abc") 2)
  = vessel_of "abc".
Proof.
  assert (Hk : keeps_input_and_spec
                 (All [String "ab"; String "zz"] : Parser stored)).
  { apply (All_loop_keeps [String "ab"; String "zz"]).
    intros q [<-|[<-|[]]]; apply String_keeps. }
  apply (proj1 (failed_Try_leaves_vessel
                  (All [String "ab"; String "zz"]) (String "(") (String ")")
                  (vessel_of "abc")) Hk VNil).
  reflexivity.
Defined.

Lemma Pop_drops_elements_witness :
  remaining (Pop (vessel_of "abc") 2) = [99].
Proof.
  apply (Pop_drops_elements (vessel_of "abc") 2);
    [vm_compute; discriminate | lia | int_range].
Defined.

End parsec.
